(** * Profesor: the retrieval engine (src/utils/rag.js)

    A shallow embedding of the chunker, the vector store, the embedding
    client and the retrieval entry points, followed by the properties of
    them that the specification states.

    Conventions.
    - A JavaScript string is the list of its UTF-16 code units; [length] of
      the list is the string's [.length].
    - A JavaScript number that holds a size, an index or a count is a [Z].
    - The numbers of an embedding and the scores are kept behind the class
      [Number]. Its instance [Double] is IEEE 754 binary64, the arithmetic
      the program runs on, and the one the properties of cosine similarity
      are proved in; its instance [Exact] is the real numbers, on which the
      comparator of the ranking is consistent for every list of scores.
    - An embedding is a dense array of numbers; [None] stands for null and
      undefined.
    - The embedding provider, the timers and the module's one store live in
      an explicit world that the asynchronous functions thread through a
      state-and-exception monad. A call is run to its settlement: the
      provider answers every request, and the [onProgress] callback
      returns. Calls do not overlap, except in the section on loads that
      overlap, where [processDocument] is cut at its [await]s. *)

From Stdlib Require Import ZArith NArith Bool Lia.
From Stdlib Require Import Floats Reals Lra.
From Stdlib Require Import String Ascii.
From Stdlib Require Import List Permutation Sorted.
Import ListNotations.

Set Implicit Arguments.

(** ** JavaScript strings *)

Definition code_unit := N.
Definition jsstring := list code_unit.

(** An ASCII literal as a JavaScript string. *)
Definition lit (s : string) : jsstring :=
  map N_of_ascii (list_ascii_of_string s).

Definition LF : code_unit := 10%N.
Definition SPACE : code_unit := 32%N.

(** ECMAScript's WhiteSpace and LineTerminator code points: what [\s]
    matches and what [String.prototype.trim] removes. *)
Definition is_ws (c : code_unit) : bool :=
  ((9 <=? c) && (c <=? 13) || (c =? 32) || (c =? 160) || (c =? 5760)
   || (8192 <=? c) && (c <=? 8202) || (c =? 8232) || (c =? 8233)
   || (c =? 8239) || (c =? 8287) || (c =? 12288) || (c =? 65279))%N.

(** The class [[.!?]] of the sentence regular expression. *)
Definition is_terminator (c : code_unit) : bool :=
  ((c =? 46) || (c =? 33) || (c =? 63))%N.

Fixpoint trimStart (s : jsstring) : jsstring :=
  match s with
  | [] => []
  | c :: s' => if is_ws c then trimStart s' else s
  end.

Definition trimEnd (s : jsstring) : jsstring := rev (trimStart (rev s)).

(** [s.trim()] *)
Definition trim (s : jsstring) : jsstring := trimEnd (trimStart s).

(** Truthiness of a string: it is not empty. *)
Definition truthy (s : jsstring) : bool :=
  match s with [] => false | _ :: _ => true end.

(** Puts a code unit in front of the piece that a split has in progress. *)
Definition push_front (c : code_unit) (pieces : list jsstring) : list jsstring :=
  match pieces with
  | [] => [[c]]
  | p :: ps => (c :: p) :: ps
  end.

(** [s.split(' ')]: split at every occurrence of one code unit. *)
Fixpoint split_unit (sep : code_unit) (s : jsstring) : list jsstring :=
  match s with
  | [] => [[]]
  | c :: s' =>
      if (c =? sep)%N then [] :: split_unit sep s'
      else push_front c (split_unit sep s')
  end.

(** [pieces.join(sep)] *)
Fixpoint join (sep : jsstring) (pieces : list jsstring) : jsstring :=
  match pieces with
  | [] => []
  | [p] => p
  | p :: ps => p ++ sep ++ join sep ps
  end.

(** [text.split(/\n\n+/)]. The head of the result is the piece in progress.
    [inside] says that the scan is inside a separator, whose [\n+] takes
    every line feed that follows. *)
Fixpoint split_blank_lines (inside : bool) (s : jsstring) : list jsstring :=
  match s with
  | [] => [[]]
  | c :: s' =>
      if inside && (c =? LF)%N then split_blank_lines true s'
      else
        match s' with
        | c' :: s'' =>
            if (c =? LF)%N && (c' =? LF)%N
            then [] :: split_blank_lines true s''
            else push_front c (split_blank_lines false s')
        | [] => [[c]]
        end
  end.

(** [text.split(/(?<=[.!?])\s+/)]. [after_terminator] is the lookbehind:
    the code unit before the scan position is one of [.!?]. A separator
    starts at a whitespace unit that follows a terminator and takes the
    whole run of whitespace. *)
Fixpoint split_sentences (after_terminator inside : bool) (s : jsstring)
  : list jsstring :=
  match s with
  | [] => [[]]
  | c :: s' =>
      if is_ws c then
        if inside then split_sentences false true s'
        else if after_terminator then [] :: split_sentences false true s'
        else push_front c (split_sentences false false s')
      else push_front c (split_sentences (is_terminator c) false s')
  end.

(** Relative index of [Array.prototype.slice]. *)
Definition rel_index (len i : Z) : Z :=
  if (i <? 0)%Z then Z.max (len + i) 0 else Z.min i len.

(** [l.slice(start, stop)] *)
Definition js_slice (A : Type) (l : list A) (start stop : Z) : list A :=
  let len := Z.of_nat (length l) in
  let k := rel_index len start in
  let final := rel_index len stop in
  firstn (Z.to_nat (Z.max (final - k) 0)) (skipn (Z.to_nat k) l).

(** [l.slice(start)] *)
Definition js_slice_from (A : Type) (l : list A) (start : Z) : list A :=
  js_slice l start (Z.of_nat (length l)).

(** ** Chunker *)

(** An element of [chunkText]'s result: [{ text, index }]. *)
Record Piece := mkPiece { piece_text : jsstring; piece_index : Z }.

(** The three variables of a splitting loop: [chunks], [currentChunk],
    [chunkIndex]. *)
Definition LoopState := (list Piece * jsstring * Z)%type.

Definition len (s : jsstring) : Z := Z.of_nat (length s).

(** The condition under which both loops flush the buffer. *)
Definition overflows (chunkSize : Z) (currentChunk part : jsstring) : bool :=
  ((len currentChunk + len part >? chunkSize) && (len currentChunk >? 0))%Z.

(** One iteration of the paragraph loop (rag.js, lines 79-87). *)
Definition paragraph_step (chunkSize : Z) (st : LoopState) (para : jsstring)
  : LoopState :=
  let '(chunks, currentChunk, chunkIndex) := st in
  if overflows chunkSize currentChunk para then
    let words := split_unit SPACE currentChunk in
    (chunks ++ [mkPiece (trim currentChunk) chunkIndex],
     join [SPACE] (js_slice_from words (-20)) ++ [SPACE] ++ para,
     (chunkIndex + 1)%Z)
  else
    (chunks,
     currentChunk ++ (if truthy currentChunk then [LF; LF] else []) ++ para,
     chunkIndex).

(** One iteration of the sentence loop (rag.js, lines 107-114). *)
Definition sentence_step (chunkSize : Z) (st : LoopState) (sentence : jsstring)
  : LoopState :=
  let '(chunks, currentChunk, chunkIndex) := st in
  if overflows chunkSize currentChunk sentence then
    (chunks ++ [mkPiece (trim currentChunk) chunkIndex],
     sentence,
     (chunkIndex + 1)%Z)
  else
    (chunks,
     currentChunk ++ (if truthy currentChunk then [SPACE] else []) ++ sentence,
     chunkIndex).

(** The flush after a loop: the buffer is pushed when its trimmed text is
    not empty. *)
Definition final_flush (st : LoopState) : list Piece :=
  let '(chunks, currentChunk, chunkIndex) := st in
  if truthy (trim currentChunk)
  then chunks ++ [mkPiece (trim currentChunk) chunkIndex]
  else chunks.

Definition splitBySentences (text : jsstring) (chunkSize : Z) : list Piece :=
  final_flush
    (fold_left (sentence_step chunkSize)
       (split_sentences false false text) ([], [], 0%Z)).

(** The paragraph phase of [chunkText] (rag.js, lines 74-91). *)
Definition splitByParagraphs (text : jsstring) (chunkSize : Z) : list Piece :=
  final_flush
    (fold_left (paragraph_step chunkSize)
       (split_blank_lines false text) ([], [], 0%Z)).

(** [chunkText(text, chunkSize, overlap)]; the body never reads [overlap]. *)
Definition chunkText (text : jsstring) (chunkSize overlap : Z) : list Piece :=
  let chunks := splitByParagraphs text chunkSize in
  if ((Z.of_nat (length chunks) <? 3) && (len text >? 1000))%Z
  then splitBySentences text chunkSize
  else chunks.

(** [chunkText(text)] with the default [chunkSize = 1500], [overlap = 200]. *)
Definition chunkText_default (text : jsstring) : list Piece :=
  chunkText text 1500 200.

(** ** Numbers *)

(** The operations the engine applies to the numbers of an embedding and
    to scores. [num_is_zero x] is [x === 0]; [num_is_positive x] is
    [x > 0]. *)
Class Number (num : Type) : Type := {
  num_zero : num;
  num_add : num -> num -> num;
  num_sub : num -> num -> num;
  num_mul : num -> num -> num;
  num_div : num -> num -> num;
  num_sqrt : num -> num;
  num_is_zero : num -> bool;
  num_is_positive : num -> bool
}.

(** IEEE 754 binary64: JavaScript's Number. *)
#[export] Instance Double : Number float := {|
  num_zero := 0%float;
  num_add := PrimFloat.add;
  num_sub := PrimFloat.sub;
  num_mul := PrimFloat.mul;
  num_div := PrimFloat.div;
  num_sqrt := PrimFloat.sqrt;
  num_is_zero := fun x => PrimFloat.eqb x 0%float;
  num_is_positive := fun x => PrimFloat.ltb 0%float x
|}.

(** The real numbers: the same operations without rounding. *)
#[export] Instance Exact : Number R := {|
  num_zero := 0%R;
  num_add := Rplus;
  num_sub := Rminus;
  num_mul := Rmult;
  num_div := Rdiv;
  num_sqrt := R_sqrt.sqrt;
  num_is_zero := fun x => if Req_dec_T x 0%R then true else false;
  num_is_positive := fun x => if Rlt_dec 0%R x then true else false
|}.

Section Engine.

Context {num : Type} {numeric : Number num}.

(** ** Cosine similarity *)

(** The three accumulators of the loop: [dotProduct], [normA], [normB]. *)
Definition Sums := (num * num * num)%type.

Definition cosine_step (acc : Sums) (xy : num * num) : Sums :=
  let '(dotProduct, normA, normB) := acc in
  let '(x, y) := xy in
  (num_add dotProduct (num_mul x y),
   num_add normA (num_mul x x),
   num_add normB (num_mul y y)).

(** The loop of [cosineSimilarity] over two arrays of one length. *)
Definition cosine_sums (a b : list num) : Sums :=
  fold_left cosine_step (combine a b) (num_zero, num_zero, num_zero).

(** [cosineSimilarity(a, b)]; [None] is a null or undefined argument. *)
Definition cosineSimilarity (a b : option (list num)) : num :=
  match a, b with
  | Some a, Some b =>
      if negb (length a =? length b) then num_zero
      else
        let '(dotProduct, normA, normB) := cosine_sums a b in
        if num_is_zero normA || num_is_zero normB then num_zero
        else num_div dotProduct (num_mul (num_sqrt normA) (num_sqrt normB))
  | _, _ => num_zero
  end.

(** ** The vector store *)

(** The metadata [processDocument] attaches to a chunk. *)
Record Metadata := mkMetadata {
  meta_index : Z;
  meta_title : jsstring;
  meta_hasEmbedding : bool
}.

(** A stored chunk: [{ id, text, embedding, metadata }]. An [embedding] of
    [None] is null or undefined; a [metadata] of [None] is the default
    [{}]. *)
Record Chunk := mkChunk {
  chunk_id : Z;
  chunk_text : jsstring;
  chunk_embedding : option (list num);
  chunk_metadata : option Metadata
}.

Record RAGStore := mkStore {
  chunks : list Chunk;
  documentTitle : jsstring
}.

(** [new RAGStore()] *)
Definition empty_store : RAGStore := mkStore [] [].

(** [store.clear()] *)
Definition clear (store : RAGStore) : RAGStore := mkStore [] [].

(** [store.addChunk(text, embedding, metadata)] *)
Definition addChunk (store : RAGStore) (text : jsstring)
    (embedding : option (list num)) (metadata : option Metadata) : RAGStore :=
  mkStore
    (chunks store
       ++ [mkChunk (Z.of_nat (length (chunks store))) text embedding metadata])
    (documentTitle store).

(** [store.size] *)
Definition size (store : RAGStore) : Z := Z.of_nat (length (chunks store)).

(** An element of [findSimilar]'s result: the chunk, and its [score] when
    the chunks were ranked. *)
Record Hit := mkHit { hit_chunk : Chunk; hit_score : option num }.

Definition unranked (c : Chunk) : Hit := mkHit c None.

(** [chunk.embedding?.length > 0] *)
Definition has_embedding (c : Chunk) : bool :=
  match chunk_embedding c with
  | Some (_ :: _) => true
  | _ => false
  end.

(** The score [findSimilar] gives a chunk (rag.js, lines 36-38). *)
Definition score_of (queryEmbedding : list num) (c : Chunk) : num :=
  if has_embedding c
  then cosineSimilarity (Some queryEmbedding) (chunk_embedding c)
  else num_zero.

Definition scored (queryEmbedding : list num) (c : Chunk) : Hit :=
  mkHit c (Some (score_of queryEmbedding c)).

(** [h.score] as a number; only ranked hits are ever compared. *)
Definition score (h : Hit) : num :=
  match hit_score h with Some s => s | None => num_zero end.

(** The comparator [(a, b) => b.score - a.score]. *)
Definition by_score_desc (a b : Hit) : num := num_sub (score b) (score a).

(** [Array.prototype.sort(comparefn)], a stable sort: an element moves
    behind another one only when [comparefn] of the two is positive. For a
    consistent comparator ECMAScript fixes the result, and this is it. *)
Section Sort.

Variable A : Type.
Variable comparefn : A -> A -> num.

Definition goes_after (x y : A) : bool := num_is_positive (comparefn x y).

Fixpoint sort_insert (x : A) (l : list A) : list A :=
  match l with
  | [] => [x]
  | y :: l' => if goes_after x y then y :: sort_insert x l' else x :: l
  end.

Definition js_sort (l : list A) : list A := fold_right sort_insert [] l.

End Sort.

(** [store.findSimilar(queryEmbedding, topK)]; a [queryEmbedding] of [None]
    is null or undefined. *)
Definition findSimilar (store : RAGStore) (queryEmbedding : option (list num))
    (topK : Z) : list Hit :=
  match chunks store with
  | [] => []
  | _ :: _ =>
      match queryEmbedding with
      | None | Some [] => map unranked (js_slice (chunks store) 0 topK)
      | Some q =>
          js_slice (js_sort by_score_desc (map (scored q) (chunks store))) 0 topK
      end
  end.

(** [store.getAllText()] *)
Definition getAllText (store : RAGStore) : jsstring :=
  join [LF; LF] (map chunk_text (chunks store)).

End Engine.

Arguments Chunk num : clear implicits.
Arguments RAGStore num : clear implicits.
Arguments Hit num : clear implicits.

(** ** The embedding provider, timers and the shared store *)

Section Async.

Context {num : Type} {numeric : Number num}.

(** What [response.json()] yields. *)
Inductive Data :=
| DataNull                     (* null: reading [data.embedding] throws *)
| DataWithoutValues            (* [data.embedding?.values] is missing or falsy *)
| DataValues (values : list num).

Inductive Body :=
| Unparsable                   (* [response.json()] rejects *)
| Parsed (data : Data).

(** How one [fetch] settles. *)
Inductive Reply :=
| Rejected                     (* transport exception *)
| Responded (status : Z) (body : Body).

(** A reply and the milliseconds the provider takes to give it. *)
Record Timed := mkTimed { latency : Z; reply : Reply }.

(** The state the asynchronous functions share: the module's singleton
    [ragStore], the provider (what it answers to the n-th request, given
    the text sent), and a record of what was awaited and reported. *)
Record World := mkWorld {
  ragStore : RAGStore num;
  provider : nat -> jsstring -> Timed;
  fetches : nat;
  clock : Z;
  sleeps : list Z;
  progress : list (Z * Z)
}.

Inductive Exception := TransportError | SyntaxError | TypeError | TimeoutError.

Inductive Completion (A : Type) :=
| Returns (a : A)
| Throws (e : Exception).
Arguments Throws {A} e.

(** An asynchronous computation, run to its settlement. *)
Definition Async (A : Type) : Type := World -> Completion A * World.

Definition ret {A} (a : A) : Async A := fun w => (Returns a, w).

Definition throw {A} (e : Exception) : Async A := fun w => (Throws e, w).

Definition bind {A B} (m : Async A) (k : A -> Async B) : Async B :=
  fun w =>
    match m w with
    | (Returns a, w') => k a w'
    | (Throws e, w') => (Throws e, w')
    end.

(** [try { m } catch (e) { handler(e) }] *)
Definition try_catch {A} (m : Async A) (handler : Exception -> Async A) : Async A :=
  fun w =>
    match m w with
    | (Returns a, w') => (Returns a, w')
    | (Throws e, w') => handler e w'
    end.

Notation "x <- m ;; k" := (bind m (fun x => k))
  (at level 61, m at next level, right associativity).
Notation "m ;;; k" := (bind m (fun _ => k))
  (at level 61, right associativity).

Definition get_store : Async (RAGStore num) := fun w => (Returns (ragStore w), w).

Definition update_store (f : RAGStore num -> RAGStore num) : Async unit :=
  fun w =>
    (Returns tt,
     mkWorld (f (ragStore w)) (provider w) (fetches w) (clock w) (sleeps w)
       (progress w)).

(** [await new Promise(r => setTimeout(r, ms))] *)
Definition sleep (ms : Z) : Async unit :=
  fun w =>
    (Returns tt,
     mkWorld (ragStore w) (provider w) (fetches w) (clock w + ms)
       (sleeps w ++ [ms]) (progress w)).

(** [onProgress({ current, total, ... })] *)
Definition report (current total : Z) : Async unit :=
  fun w =>
    (Returns tt,
     mkWorld (ragStore w) (provider w) (fetches w) (clock w) (sleeps w)
       (progress w ++ [(current, total)])).

(** [await fetch(url, { ..., body: JSON.stringify({ ..., text }) })] *)
Definition fetch (text : jsstring) : Async (Z * Body) :=
  fun w =>
    let t := provider w (fetches w) text in
    let w' := mkWorld (ragStore w) (provider w) (S (fetches w))
                (clock w + latency t) (sleeps w) (progress w) in
    match reply t with
    | Rejected => (Throws TransportError, w')
    | Responded status body => (Returns (status, body), w')
    end.

(** [response.ok] *)
Definition is_ok (status : Z) : bool := (200 <=? status)%Z && (status <=? 299)%Z.

(** [await response.json()] *)
Definition json (body : Body) : Async Data :=
  match body with
  | Unparsable => throw SyntaxError
  | Parsed data => ret data
  end.

(** [data.embedding?.values || null] *)
Definition embedding_values (data : Data) : Async (option (list num)) :=
  match data with
  | DataNull => throw TypeError
  | DataWithoutValues => ret None
  | DataValues values => ret (Some values)
  end.

(** How an iteration of the retry loop ends: with [continue] or [return]. *)
Inductive Iteration (A : Type) :=
| Continue
| Return (a : A).
Arguments Continue {A}.

(** The body of the retry loop: the [try] block and its [catch]
    (rag.js, lines 128-154). *)
Definition attempt_once (text : jsstring) (retries attempt : Z)
  : Async (Iteration (option (list num))) :=
  try_catch
    (response <- fetch text ;;
     let '(status, body) := response in
     if (status =? 429)%Z then
       if (attempt <? retries)%Z then
         sleep (2000 * (attempt + 1)) ;;; ret Continue
       else ret (Return None)
     else if negb (is_ok status) then ret (Return None)
     else
       data <- json body ;;
       values <- embedding_values data ;;
       ret (Return values))
    (fun _ => ret (Return None)).

(** [for (let attempt = ...; attempt <= retries; attempt++) { ... } return null;]
    with [fuel] iterations at hand. *)
Fixpoint retry_loop (fuel : nat) (text : jsstring) (retries attempt : Z)
  : Async (option (list num)) :=
  match fuel with
  | O => ret None
  | S fuel' =>
      if (attempt <=? retries)%Z then
        it <- attempt_once text retries attempt ;;
        match it with
        | Continue => retry_loop fuel' text retries (attempt + 1)
        | Return v => ret v
        end
      else ret None
  end.

(** [generateEmbeddingWithRetry(text, retries)]. The loop runs at most
    [retries + 1] times. *)
Definition generateEmbeddingWithRetry (text : jsstring) (retries : Z)
  : Async (option (list num)) :=
  retry_loop (Z.to_nat (retries + 1)) text retries 0.

(** [embedding || []] *)
Definition or_empty (embedding : option (list num)) : list num :=
  match embedding with Some v => v | None => [] end.

(** [!!embedding] *)
Definition is_present (embedding : option (list num)) : bool :=
  match embedding with Some _ => true | None => false end.

(** The loop of [processDocument] from its [i]-th chunk on
    (rag.js, lines 174-201). *)
Fixpoint process_chunks (title : jsstring) (onProgress : bool) (total i : Z)
    (todo : list Piece) : Async unit :=
  match todo with
  | [] => ret tt
  | chunk :: todo' =>
      (if onProgress then report (i + 1) total else ret tt) ;;;
      embedding <- generateEmbeddingWithRetry (piece_text chunk) 2 ;;
      update_store (fun s =>
        addChunk s (piece_text chunk) (Some (or_empty embedding))
          (Some (mkMetadata (piece_index chunk) title (is_present embedding)))) ;;;
      sleep 50 ;;;
      process_chunks title onProgress total (i + 1) todo'
  end.

(** [processDocument(text, title, onProgress)]; [onProgress] says whether
    a callback was passed. *)
Definition processDocument (text title : jsstring) (onProgress : bool) : Async Z :=
  update_store clear ;;;
  update_store (fun s => mkStore (chunks s) title) ;;;
  let pieces := chunkText_default text in
  process_chunks title onProgress (Z.of_nat (length pieces)) 0 pieces ;;;
  s <- get_store ;;
  ret (size s).

(** [Promise.race([promise, timeoutPromise])]: the timer rejects unless
    the promise settles in fewer than [deadline] milliseconds. *)
Definition race_timeout {A} (deadline : Z) (promise : Async A) : Async A :=
  fun w =>
    let '(r, w') := promise w in
    if (clock w' - clock w <? deadline)%Z then (r, w')
    else
      (Throws TimeoutError,
       mkWorld (ragStore w') (provider w') (fetches w') (clock w + deadline)
         (sleeps w') (progress w')).

(** The separator between the chunks of a context. *)
Definition separator : jsstring := [LF; LF] ++ lit "---" ++ [LF; LF].

(** [retrieveContext(query, topK)] *)
Definition retrieveContext (query : jsstring) (topK : Z) : Async jsstring :=
  s <- get_store ;;
  if (size s =? 0)%Z then ret []
  else
    queryEmbedding <-
      try_catch (race_timeout 800 (generateEmbeddingWithRetry query 0))
                (fun _ => ret None) ;;
    s' <- get_store ;;
    let similar := findSimilar s' queryEmbedding topK in
    ret (join separator (map (fun h => chunk_text (hit_chunk h)) similar)).

(** [getDocumentSummary(maxChunks)] *)
Definition getDocumentSummary (store : RAGStore num) (maxChunks : Z) : jsstring :=
  if (size store =? 0)%Z then []
  else join [LF; LF] (map chunk_text (js_slice (chunks store) 0 maxChunks)).

(** [isDocumentLoaded()] *)
Definition isDocumentLoaded (store : RAGStore num) : bool := (size store >? 0)%Z.

(** [getDocumentTitle()] *)
Definition getDocumentTitle (store : RAGStore num) : jsstring := documentTitle store.

End Async.

Arguments Continue {A}.
Arguments Throws {A} e.

(** ** Properties of the chunker *)

(** *** The string functions *)

(** A text with its whitespace removed: the text modulo whitespace. *)
Definition squash (s : jsstring) : jsstring :=
  filter (fun c => negb (is_ws c)) s.

(** [x] is a suffix of [y]. *)
Definition is_suffix (x y : jsstring) : Prop := exists pre, y = pre ++ x.

Lemma squash_app (a b : jsstring) : squash (a ++ b) = squash a ++ squash b.
Proof. apply filter_app. Qed.

Lemma squash_trimStart (s : jsstring) : squash (trimStart s) = squash s.
Proof.
  induction s as [|c s IH]; simpl; [reflexivity|].
  destruct (is_ws c) eqn:E; simpl; [exact IH|].
  now rewrite E.
Qed.

Lemma squash_rev (s : jsstring) : squash (rev s) = rev (squash s).
Proof.
  induction s as [|c s IH]; simpl; [reflexivity|].
  rewrite squash_app, IH. simpl.
  destruct (is_ws c); simpl; [now rewrite app_nil_r | reflexivity].
Qed.

Lemma squash_trim (s : jsstring) : squash (trim s) = squash s.
Proof.
  unfold trim, trimEnd.
  now rewrite squash_rev, squash_trimStart, squash_rev, rev_involutive, squash_trimStart.
Qed.

Lemma squash_suffix (x y : jsstring) :
  is_suffix x y -> is_suffix (squash x) (squash y).
Proof. intros [pre ->]. exists (squash pre). apply squash_app. Qed.

Lemma is_suffix_refl (x : jsstring) : is_suffix x x.
Proof. now exists []. Qed.

Lemma trimStart_head (s : jsstring) :
  match trimStart s with [] => True | c :: _ => is_ws c = false end.
Proof.
  induction s as [|c s IH]; simpl; [exact I|].
  destruct (is_ws c) eqn:E; [exact IH | exact E].
Qed.

Lemma push_front_concat (c : code_unit) (ps : list jsstring) :
  concat (push_front c ps) = c :: concat ps.
Proof. destruct ps; reflexivity. Qed.

Lemma split_unit_cons (sep : code_unit) (s : jsstring) :
  exists p ps, split_unit sep s = p :: ps.
Proof.
  destruct s as [|c s]; simpl; [now eexists _, _|].
  destruct (c =? sep)%N; [now eexists _, _|].
  destruct (split_unit sep s); simpl; now eexists _, _.
Qed.

Lemma join_cons (sep p q : jsstring) (ps : list jsstring) :
  join sep (p :: q :: ps) = p ++ sep ++ join sep (q :: ps).
Proof. reflexivity. Qed.

Lemma join_push_front (sep : jsstring) (c : code_unit) (ps : list jsstring) :
  ps <> [] -> join sep (push_front c ps) = c :: join sep ps.
Proof. destruct ps as [|p [|q ps]]; intros H; [contradiction| |]; reflexivity. Qed.

(** Joining what [split(' ')] returned gives the string back. *)
Lemma join_split_unit (sep : code_unit) (s : jsstring) :
  join [sep] (split_unit sep s) = s.
Proof.
  induction s as [|c s IH]; [reflexivity|].
  destruct (split_unit_cons sep s) as (p & ps & E).
  cbn [split_unit]. destruct (N.eqb_spec c sep) as [->|Hne].
  - rewrite E, join_cons, <- E, IH. reflexivity.
  - rewrite join_push_front by (rewrite E; discriminate).
    now rewrite IH.
Qed.

Lemma join_skipn_suffix (sep : jsstring) (k : nat) (ps : list jsstring) :
  is_suffix (join sep (skipn k ps)) (join sep ps).
Proof.
  revert ps. induction k as [|k IH]; intros ps; [apply is_suffix_refl|].
  destruct ps as [|p ps]; [apply is_suffix_refl|].
  cbn [skipn]. destruct (IH ps) as [pre E].
  destruct ps as [|q ps].
  - rewrite skipn_nil. exists p. simpl. now rewrite app_nil_r.
  - rewrite join_cons, E.
    exists (p ++ sep ++ pre). now rewrite <- !app_assoc.
Qed.

Lemma js_slice_from_negative (A : Type) (l : list A) (n : nat) :
  0 < n -> js_slice_from l (- Z.of_nat n) = skipn (length l - n) l.
Proof.
  intros Hn. unfold js_slice_from, js_slice, rel_index.
  set (L := Z.of_nat (length l)).
  assert (HL : L = Z.of_nat (length l)) by reflexivity.
  clearbody L.
  replace (if (L <? 0)%Z then Z.max (L + L) 0 else Z.min L L) with L
    by (destruct (L <? 0)%Z eqn:E; lia).
  destruct (Z.ltb_spec (- Z.of_nat n) 0).
  - replace (Z.to_nat (Z.max (L + - Z.of_nat n) 0)) with (length l - n) by lia.
    rewrite firstn_all2; [reflexivity|].
    rewrite length_skipn. lia.
  - lia.
Qed.

(** The overlap seed of the paragraph loop is a suffix of the buffer. *)
Lemma overlap_seed_suffix (currentChunk : jsstring) :
  is_suffix (join [SPACE] (js_slice_from (split_unit SPACE currentChunk) (-20)))
            currentChunk.
Proof.
  change (-20)%Z with (- Z.of_nat 20)%Z.
  rewrite js_slice_from_negative by lia.
  destruct (join_skipn_suffix [SPACE]
              (length (split_unit SPACE currentChunk) - 20)
              (split_unit SPACE currentChunk)) as [pre E].
  rewrite join_split_unit in E. now exists pre.
Qed.

Lemma squash_cons_ws (c : code_unit) (s : jsstring) :
  is_ws c = true -> squash (c :: s) = squash s.
Proof. intros H. unfold squash. simpl. now rewrite H. Qed.

Lemma squash_cons (c : code_unit) (s : jsstring) :
  squash (c :: s) = squash [c] ++ squash s.
Proof. apply (squash_app [c] s). Qed.

(** Neither split loses or adds anything but whitespace. *)
Lemma split_blank_lines_content (s : jsstring) :
  forall inside, squash (concat (split_blank_lines inside s)) = squash s.
Proof.
  remember (length s) as n eqn:Hn.
  assert (Hle : length s <= n) by lia. clear Hn.
  revert s Hle. induction n as [|n IH]; intros s Hle inside.
  - destruct s; [reflexivity | simpl in Hle; lia].
  - destruct s as [|c s']; [reflexivity|]. simpl in Hle.
    cbn [split_blank_lines].
    destruct (inside && (c =? LF)%N) eqn:E.
    + apply andb_true_iff in E as [_ E]. apply N.eqb_eq in E. subst c.
      rewrite IH by lia. now rewrite squash_cons_ws.
    + destruct s' as [|c' s'']; [reflexivity|].
      destruct ((c =? LF)%N && (c' =? LF)%N) eqn:E2.
      * apply andb_true_iff in E2 as [E1 E2].
        apply N.eqb_eq in E1, E2. subst c c'. simpl in Hle.
        cbn [concat app]. rewrite IH by lia.
        now rewrite !squash_cons_ws.
      * rewrite push_front_concat, squash_cons, IH by lia.
        now rewrite <- squash_cons.
Qed.

Lemma split_sentences_content (s : jsstring) :
  forall after_terminator inside,
    squash (concat (split_sentences after_terminator inside s)) = squash s.
Proof.
  induction s as [|c s IH]; intros a i; [reflexivity|].
  cbn [split_sentences].
  destruct (is_ws c) eqn:W.
  - destruct i; [|destruct a].
    + now rewrite IH, squash_cons_ws.
    + cbn [concat app]. now rewrite IH, squash_cons_ws.
    + now rewrite push_front_concat, !squash_cons_ws, IH.
  - rewrite push_front_concat, squash_cons, IH. now rewrite <- squash_cons.
Qed.

Lemma trim_empty_squash (s : jsstring) : truthy (trim s) = false -> squash s = [].
Proof.
  intros H. rewrite <- squash_trim. now destruct (trim s).
Qed.

(** The texts of the chunks, modulo whitespace. *)
Definition texts_mod_ws (chunks : list Piece) : list jsstring :=
  map (fun p => squash (piece_text p)) chunks.

(** [covers prev texts content]: the texts spell [content] once the overlap
    is taken out of them. Each text is a seed, which repeats the end of the
    text before it ([prev] for the first one), followed by its own share of
    the content. *)
Inductive covers : jsstring -> list jsstring -> jsstring -> Prop :=
| covers_nil prev : covers prev [] []
| covers_cons prev seed fresh rest content :
    is_suffix seed prev ->
    covers (seed ++ fresh) rest content ->
    covers prev ((seed ++ fresh) :: rest) (fresh ++ content).

Lemma last_cons (A : Type) (x d : A) (l : list A) : last (x :: l) d = last l x.
Proof.
  revert x d. induction l as [|y l IH]; intros x d; [reflexivity|].
  change (last (x :: y :: l) d) with (last (y :: l) d).
  now rewrite (IH y d), (IH y x).
Qed.

Lemma covers_snoc prev texts content seed fresh :
  covers prev texts content ->
  is_suffix seed (last texts prev) ->
  covers prev (texts ++ [seed ++ fresh]) (content ++ fresh).
Proof.
  induction 1 as [prev | prev sd fr rest content Hsd Hc IH]; intros Hs.
  - simpl in *. rewrite <- (app_nil_r fresh) at 2.
    constructor; [exact Hs | constructor].
  - rewrite last_cons in Hs. specialize (IH Hs).
    rewrite <- app_comm_cons, <- app_assoc.
    now constructor.
Qed.

Lemma covers_nonempty prev texts content :
  covers prev texts content -> content <> [] -> texts <> [].
Proof. intros H Hne. destruct H; [contradiction | discriminate]. Qed.

(** Without overlap the texts simply concatenate to the content. *)
Lemma covers_concat (texts : list jsstring) :
  forall prev, covers prev texts (concat texts).
Proof.
  induction texts as [|t texts IH]; intros prev; [constructor|].
  simpl. apply (@covers_cons prev [] t texts (concat texts)).
  - exists prev. now rewrite app_nil_r.
  - apply IH.
Qed.

Lemma texts_mod_ws_app (a b : list Piece) :
  texts_mod_ws (a ++ b) = texts_mod_ws a ++ texts_mod_ws b.
Proof. apply map_app. Qed.

Lemma texts_mod_ws_snoc (chunks : list Piece) (p : Piece) :
  texts_mod_ws (chunks ++ [p]) = texts_mod_ws chunks ++ [squash (piece_text p)].
Proof. apply map_app. Qed.

(** *** The sentence loop *)

(** What a loop state holds, modulo whitespace. *)
Definition held (st : LoopState) : jsstring :=
  let '(chunks, currentChunk, _) := st in
  concat (texts_mod_ws chunks) ++ squash currentChunk.

Lemma squash_glue (currentChunk sep part : jsstring) :
  squash sep = [] ->
  squash (currentChunk ++ (if truthy currentChunk then sep else []) ++ part)
  = squash currentChunk ++ squash part.
Proof.
  intros H. rewrite !squash_app.
  destruct (truthy currentChunk); [now rewrite H | reflexivity].
Qed.

Lemma sentence_step_held (chunkSize : Z) (st : LoopState) (sentence : jsstring) :
  held (sentence_step chunkSize st sentence) = held st ++ squash sentence.
Proof.
  destruct st as [[chunks cur] idx]. unfold sentence_step.
  destruct (overflows chunkSize cur sentence); cbn [held].
  - rewrite texts_mod_ws_app, concat_app. simpl.
    now rewrite squash_trim, app_nil_r.
  - rewrite squash_glue by reflexivity. now rewrite app_assoc.
Qed.

Lemma sentence_loop_held (chunkSize : Z) (sentences : list jsstring) :
  forall st,
    held (fold_left (sentence_step chunkSize) sentences st)
    = held st ++ squash (concat sentences).
Proof.
  induction sentences as [|s l IH]; intros st; simpl.
  - now rewrite app_nil_r.
  - now rewrite IH, sentence_step_held, squash_app, app_assoc.
Qed.

Lemma final_flush_held (st : LoopState) :
  concat (texts_mod_ws (final_flush st)) = held st.
Proof.
  destruct st as [[chunks cur] idx]. unfold final_flush, held.
  destruct (truthy (trim cur)) eqn:E.
  - rewrite texts_mod_ws_app, concat_app. simpl.
    now rewrite squash_trim, app_nil_r.
  - now rewrite (trim_empty_squash _ E), app_nil_r.
Qed.

(** The sentence split keeps the text, modulo whitespace, without
    repeating any of it. *)
Lemma splitBySentences_content (text : jsstring) (chunkSize : Z) :
  concat (texts_mod_ws (splitBySentences text chunkSize)) = squash text.
Proof.
  unfold splitBySentences.
  rewrite final_flush_held, sentence_loop_held, split_sentences_content.
  reflexivity.
Qed.

(** *** The paragraph loop *)

(** The invariant of the paragraph loop: the buffer is a seed taken from
    the end of the chunk before it, followed by text not yet in any chunk,
    and the chunks pushed so far cover the rest of [content]. *)
Definition paragraph_inv (st : LoopState) (content : jsstring) : Prop :=
  let '(chunks, currentChunk, _) := st in
  exists seed fresh done,
    squash currentChunk = seed ++ fresh
    /\ is_suffix seed (last (texts_mod_ws chunks) [])
    /\ covers [] (texts_mod_ws chunks) done
    /\ content = done ++ fresh.

Lemma paragraph_inv_init : paragraph_inv ([], [], 0%Z) [].
Proof.
  exists [], [], []. repeat split; [apply is_suffix_refl | constructor].
Qed.

Lemma paragraph_step_inv (chunkSize : Z) (st : LoopState) (content para : jsstring) :
  paragraph_inv st content ->
  paragraph_inv (paragraph_step chunkSize st para) (content ++ squash para).
Proof.
  destruct st as [[chunks cur] idx].
  intros (seed & fresh & done & Hcur & Hseed & Hcov & ->).
  unfold paragraph_step.
  destruct (overflows chunkSize cur para); cbn [paragraph_inv].
  - exists (squash (join [SPACE] (js_slice_from (split_unit SPACE cur) (-20)))),
           (squash para), (done ++ fresh).
    rewrite texts_mod_ws_snoc, last_last. cbn [piece_text].
    rewrite squash_trim. repeat split.
    + now rewrite !squash_app.
    + apply squash_suffix, overlap_seed_suffix.
    + rewrite Hcur. now apply covers_snoc.
  - exists seed, (fresh ++ squash para), done. repeat split.
    + rewrite squash_glue by reflexivity. now rewrite Hcur, app_assoc.
    + exact Hseed.
    + exact Hcov.
    + now rewrite app_assoc.
Qed.

Lemma paragraph_loop_inv (chunkSize : Z) (paragraphs : list jsstring) :
  forall st content,
    paragraph_inv st content ->
    paragraph_inv (fold_left (paragraph_step chunkSize) paragraphs st)
                  (content ++ squash (concat paragraphs)).
Proof.
  induction paragraphs as [|p l IH]; intros st content H; simpl.
  - now rewrite app_nil_r.
  - rewrite squash_app, app_assoc. apply IH. now apply paragraph_step_inv.
Qed.

Lemma final_flush_covers (st : LoopState) (content : jsstring) :
  paragraph_inv st content -> covers [] (texts_mod_ws (final_flush st)) content.
Proof.
  destruct st as [[chunks cur] idx].
  intros (seed & fresh & done & Hcur & Hseed & Hcov & ->).
  unfold final_flush. destruct (truthy (trim cur)) eqn:E.
  - rewrite texts_mod_ws_snoc. cbn [piece_text].
    rewrite squash_trim, Hcur. now apply covers_snoc.
  - apply trim_empty_squash in E. rewrite E in Hcur.
    symmetry in Hcur. apply app_eq_nil in Hcur as [_ ->].
    now rewrite app_nil_r.
Qed.

Lemma splitByParagraphs_covers (text : jsstring) (chunkSize : Z) :
  covers [] (texts_mod_ws (splitByParagraphs text chunkSize)) (squash text).
Proof.
  unfold splitByParagraphs. apply final_flush_covers.
  rewrite <- (split_blank_lines_content text false).
  apply (paragraph_loop_inv chunkSize (split_blank_lines false text)
           ([], [], 0%Z) []).
  apply paragraph_inv_init.
Qed.

Lemma chunkText_covers (text : jsstring) (chunkSize overlap : Z) :
  covers [] (texts_mod_ws (chunkText text chunkSize overlap)) (squash text).
Proof.
  unfold chunkText.
  destruct (_ && _).
  - rewrite <- (splitBySentences_content text chunkSize). apply covers_concat.
  - apply splitByParagraphs_covers.
Qed.

(** A document with something other than whitespace in it. *)
Definition has_content (text : jsstring) : Prop :=
  exists c, In c text /\ is_ws c = false.

Lemma has_content_squash (text : jsstring) :
  has_content text -> squash text <> [].
Proof.
  intros (c & Hin & Hc) E.
  assert (H : In c (squash text)) by (apply filter_In; now rewrite Hc).
  now rewrite E in H.
Qed.

(** *** Sentence boundaries *)

Definition starts_clean (p : jsstring) : bool :=
  match p with c :: _ => negb (is_ws c) | [] => true end.

Fixpoint ends_with_terminator (p : jsstring) : bool :=
  match p with
  | [] => false
  | [c] => is_terminator c
  | _ :: p' => ends_with_terminator p'
  end.

(** A sentence boundary inside [p]: one of [.!?] with whitespace after it. *)
Fixpoint has_boundary (p : jsstring) : bool :=
  match p with
  | c :: (c' :: _) as p' => is_terminator c && is_ws c' || has_boundary p'
  | _ => false
  end.

(** A first piece and the gaps and pieces that follow it, put together. *)
Definition unsplit (p0 : jsstring) (rest : list (jsstring * jsstring)) : jsstring :=
  p0 ++ concat (map (fun gp => fst gp ++ snd gp) rest).

(** The pieces are cut at the sentence boundaries and nowhere else: no
    piece has a boundary inside; a piece with a gap after it ends in one of
    [.!?]; a gap is whitespace, at least one unit of it, and the piece
    after it does not start with whitespace. *)
Fixpoint sentence_pieces (p0 : jsstring) (rest : list (jsstring * jsstring)) : Prop :=
  has_boundary p0 = false
  /\ match rest with
     | [] => True
     | (g, p) :: rest' =>
         ends_with_terminator p0 = true
         /\ g <> [] /\ forallb is_ws g = true
         /\ starts_clean p = true
         /\ sentence_pieces p rest'
     end.

Lemma terminator_not_ws (c : code_unit) : is_terminator c = true -> is_ws c = false.
Proof.
  unfold is_terminator, is_ws. intros H.
  repeat (apply orb_true_iff in H as [H | H]); apply N.eqb_eq in H; now subst c.
Qed.

Lemma ends_with_terminator_cons (c : code_unit) (p : jsstring) :
  ends_with_terminator p = true -> ends_with_terminator (c :: p) = true.
Proof. destruct p; [discriminate | auto]. Qed.

Lemma has_boundary_cons (c : code_unit) (p : jsstring) :
  has_boundary p = false ->
  is_terminator c = false \/ starts_clean p = true ->
  has_boundary (c :: p) = false.
Proof.
  intros Hp H. destruct p as [|c' p]; [reflexivity|].
  change (has_boundary (c :: c' :: p))
    with (is_terminator c && is_ws c' || has_boundary (c' :: p)).
  rewrite Hp, orb_false_r.
  destruct H as [-> | H]; [reflexivity|].
  simpl in H. apply negb_true_iff in H. rewrite H. apply andb_false_r.
Qed.

(** The scan from a position on: [gap0] is what is left of the separator
    the scan is inside of. *)
Lemma split_sentences_scan (s : jsstring) :
  forall after_terminator inside,
  exists gap0 p0 rest,
    split_sentences after_terminator inside s = p0 :: map snd rest
    /\ s = gap0 ++ unsplit p0 rest
    /\ forallb is_ws gap0 = true
    /\ (inside = false -> gap0 = [])
    /\ (inside = true \/ after_terminator = true -> starts_clean p0 = true)
    /\ has_boundary p0 = false
    /\ match rest with
       | [] => True
       | (g, p) :: rest' =>
           (ends_with_terminator p0 = true
            \/ p0 = [] /\ after_terminator = true /\ inside = false)
           /\ g <> [] /\ forallb is_ws g = true
           /\ starts_clean p = true
           /\ sentence_pieces p rest'
       end.
Proof.
  induction s as [|c s IH]; intros a i.
  - exists [], [], []. repeat split; auto.
  - cbn [split_sentences]. destruct (is_ws c) eqn:W.
    + destruct i; [|destruct a].
      * destruct (IH false true) as (g0 & p0 & rest & E & Hs & Hg & _ & Hc & Hb & Ht).
        exists (c :: g0), p0, rest. rewrite E, Hs.
        repeat split; auto.
        -- simpl. now rewrite W.
        -- discriminate.
        -- destruct rest as [|[g p] rest']; [exact I|].
           destruct Ht as ([Ht | (_ & Ht & _)] & Hrest); [|discriminate].
           split; [now left | exact Hrest].
      * destruct (IH false true) as (g0 & p1 & rest & E & Hs & Hg & _ & Hc & Hb & Ht).
        exists [], [], ((c :: g0, p1) :: rest). rewrite E, Hs.
        repeat split; auto.
        -- unfold unsplit. simpl. now rewrite <- app_assoc.
        -- discriminate.
        -- simpl. now rewrite W.
        -- destruct rest as [|[g p] rest']; [now split|].
           destruct Ht as ([Ht | (_ & Ht & _)] & Hrest); [|discriminate].
           cbn [sentence_pieces]. auto.
      * destruct (IH false false) as (g0 & p0 & rest & E & Hs & _ & Hg & _ & Hb & Ht).
        rewrite (Hg eq_refl) in Hs. simpl in Hs.
        exists [], (c :: p0), rest. rewrite E, Hs.
        repeat split; auto.
        -- intros [H | H]; discriminate.
        -- apply has_boundary_cons; [exact Hb|]. left.
           destruct (is_terminator c) eqn:T; [|reflexivity].
           apply terminator_not_ws in T. congruence.
        -- destruct rest as [|[g p] rest']; [exact I|].
           destruct Ht as ([Ht | (_ & Ht & _)] & Hrest); [|discriminate].
           split; [left; now apply ends_with_terminator_cons | exact Hrest].
    + destruct (IH (is_terminator c) false)
        as (g0 & p0 & rest & E & Hs & _ & Hg & Hc & Hb & Ht).
      rewrite (Hg eq_refl) in Hs. simpl in Hs.
      exists [], (c :: p0), rest. rewrite E, Hs.
      repeat split; auto.
      * intros _. simpl. now rewrite W.
      * apply has_boundary_cons; [exact Hb|].
        destruct (is_terminator c); [right; apply Hc; now right | now left].
      * destruct rest as [|[g p] rest']; [exact I|].
        destruct Ht as ([Ht | (-> & Ht & _)] & Hrest).
        -- split; [left; now apply ends_with_terminator_cons | exact Hrest].
        -- split; [left; exact Ht | exact Hrest].
Qed.

(** [text.split(/(?<=[.!?])\s+/)] cuts the text at its sentence boundaries. *)
Lemma split_sentences_boundaries (text : jsstring) :
  exists p0 rest,
    split_sentences false false text = p0 :: map snd rest
    /\ text = unsplit p0 rest
    /\ sentence_pieces p0 rest.
Proof.
  destruct (split_sentences_scan text false false)
    as (g0 & p0 & rest & E & Hs & _ & Hg & _ & Hb & Ht).
  rewrite (Hg eq_refl) in Hs. exists p0, rest.
  split; [exact E|]. split; [exact Hs|].
  destruct rest as [|[g p] rest']; [now split|].
  destruct Ht as ([Ht | (_ & Ht & _)] & Hrest); [|discriminate].
  cbn [sentence_pieces]. auto.
Qed.

(** *** The texts of the chunks *)

(** No whitespace at either end. *)
Definition is_trimmed (s : jsstring) : Prop :=
  starts_clean s = true /\ starts_clean (rev s) = true.

Lemma trimStart_clean (s : jsstring) : starts_clean (trimStart s) = true.
Proof.
  assert (H := trimStart_head s). destruct (trimStart s); [reflexivity|].
  simpl. now rewrite H.
Qed.

Lemma trimStart_drops_prefix (s : jsstring) : exists pre, s = pre ++ trimStart s.
Proof.
  induction s as [|c s [pre IH]]; [now exists []|].
  simpl. destruct (is_ws c).
  - exists (c :: pre). simpl. now rewrite <- IH.
  - now exists [].
Qed.

Lemma trim_is_trimmed (s : jsstring) : is_trimmed (trim s).
Proof.
  unfold is_trimmed, trim, trimEnd. rewrite rev_involutive. split.
  - destruct (trimStart_drops_prefix (rev (trimStart s))) as [pre E].
    apply (f_equal (@rev code_unit)) in E.
    rewrite rev_involutive, rev_app_distr in E.
    assert (H := trimStart_clean s). rewrite E in H.
    destruct (rev (trimStart (rev (trimStart s)))); [reflexivity | exact H].
  - apply trimStart_clean.
Qed.

(** Something other than whitespace in it. *)
Definition contentful (s : jsstring) : Prop := squash s <> [].

Lemma contentful_trim (s : jsstring) : contentful s -> trim s <> [].
Proof.
  unfold contentful. intros H E. rewrite <- squash_trim, E in H. now apply H.
Qed.

Lemma contentful_app_r (a b : jsstring) : contentful b -> contentful (a ++ b).
Proof.
  unfold contentful. rewrite squash_app. intros H E.
  apply app_eq_nil in E as [_ E]. now apply H.
Qed.

Lemma ends_with_terminator_contentful (p : jsstring) :
  ends_with_terminator p = true -> contentful p.
Proof.
  induction p as [|c p IH]; [discriminate|].
  destruct p as [|c' p].
  - simpl. intros H. apply terminator_not_ws in H.
    unfold contentful, squash. simpl. now rewrite H.
  - intros H. apply (contentful_app_r [c]). now apply IH.
Qed.

(** Every piece of a sentence split but the last has a sentence in it. *)
Lemma sentence_pieces_contentful (rest : list (jsstring * jsstring)) :
  forall p0,
    sentence_pieces p0 rest ->
    Forall contentful (removelast (p0 :: map snd rest)).
Proof.
  induction rest as [|[g p] rest IH]; intros p0 H; [constructor|].
  destruct H as (_ & He & _ & _ & _ & Hrest).
  change (removelast (p0 :: map snd ((g, p) :: rest)))
    with (p0 :: removelast (p :: map snd rest)).
  constructor; [now apply ends_with_terminator_contentful | now apply IH].
Qed.

(** What the sentence loop keeps true as long as more sentences follow:
    no chunk has an empty text, and the buffer is empty or has something
    other than whitespace in it. *)
Definition sentence_inv (st : LoopState) : Prop :=
  let '(chunks, currentChunk, _) := st in
  Forall (fun p => piece_text p <> []) chunks
  /\ (currentChunk = [] \/ contentful currentChunk).

Lemma sentence_step_chunks (chunkSize : Z) (st : LoopState) (sentence : jsstring) :
  sentence_inv st ->
  Forall (fun p => piece_text p <> [])
         (fst (fst (sentence_step chunkSize st sentence))).
Proof.
  destruct st as [[chunks cur] idx]. intros [Hc Hcur]. unfold sentence_step.
  destruct (overflows chunkSize cur sentence) eqn:E; [|exact Hc].
  cbn [fst]. apply Forall_app. split; [exact Hc|].
  constructor; [|constructor]. cbn [piece_text].
  destruct Hcur as [-> | Hcur]; [|now apply contentful_trim].
  unfold overflows in E. simpl in E. now rewrite andb_false_r in E.
Qed.

Lemma sentence_step_inv (chunkSize : Z) (st : LoopState) (sentence : jsstring) :
  sentence_inv st -> contentful sentence ->
  sentence_inv (sentence_step chunkSize st sentence).
Proof.
  intros Hinv Hs. assert (Hc := sentence_step_chunks chunkSize st sentence Hinv).
  destruct st as [[chunks cur] idx]. unfold sentence_step in *.
  destruct (overflows chunkSize cur sentence); cbn [sentence_inv fst] in *.
  - split; [exact Hc | now right].
  - split; [exact Hc|]. right.
    rewrite app_assoc. now apply contentful_app_r.
Qed.

Lemma sentence_loop_inv (chunkSize : Z) (sentences : list jsstring) :
  forall st,
    sentence_inv st -> Forall contentful sentences ->
    sentence_inv (fold_left (sentence_step chunkSize) sentences st).
Proof.
  induction sentences as [|s l IH]; intros st Hinv Hall; [exact Hinv|].
  inversion Hall; subst. simpl. apply IH; [|assumption].
  now apply sentence_step_inv.
Qed.

Lemma final_flush_nonempty (st : LoopState) :
  Forall (fun p => piece_text p <> []) (fst (fst st)) ->
  Forall (fun p => piece_text p <> []) (final_flush st).
Proof.
  destruct st as [[chunks cur] idx]. cbn [fst]. intros H. unfold final_flush.
  destruct (trim cur) eqn:E; [exact H|].
  cbn [truthy]. apply Forall_app. split; [exact H|].
  constructor; [discriminate | constructor].
Qed.

(** X20. On the sentence path no chunk has an empty text, whatever the
    text and the chunk size. *)
Lemma splitBySentences_texts_nonempty (text : jsstring) (chunkSize : Z) :
  Forall (fun p => piece_text p <> []) (splitBySentences text chunkSize).
Proof.
  unfold splitBySentences.
  destruct (split_sentences_boundaries text) as (p0 & rest & E & _ & Hp).
  rewrite E. apply final_flush_nonempty.
  rewrite (app_removelast_last (l := p0 :: map snd rest) []) by discriminate.
  rewrite fold_left_app. cbn [fold_left].
  apply sentence_step_chunks, sentence_loop_inv.
  - split; [constructor | now left].
  - now apply sentence_pieces_contentful.
Qed.

Lemma final_flush_trimmed (st : LoopState) :
  Forall (fun p => is_trimmed (piece_text p)) (fst (fst st)) ->
  Forall (fun p => is_trimmed (piece_text p)) (final_flush st).
Proof.
  destruct st as [[chunks cur] idx]. cbn [fst]. intros H. unfold final_flush.
  destruct (truthy (trim cur)); [|exact H].
  apply Forall_app. split; [exact H|].
  constructor; [apply trim_is_trimmed | constructor].
Qed.

Lemma loop_trimmed (step : LoopState -> jsstring -> LoopState) (parts : list jsstring) :
  (forall st part,
      Forall (fun p => is_trimmed (piece_text p)) (fst (fst st)) ->
      Forall (fun p => is_trimmed (piece_text p)) (fst (fst (step st part)))) ->
  forall st,
    Forall (fun p => is_trimmed (piece_text p)) (fst (fst st)) ->
    Forall (fun p => is_trimmed (piece_text p)) (fst (fst (fold_left step parts st))).
Proof.
  intros Hstep. induction parts as [|s l IH]; intros st H; [exact H|].
  simpl. apply IH. now apply Hstep.
Qed.

(** X19. On both paths every chunk text is free of whitespace at its
    ends. *)
Lemma chunkText_texts_trimmed (text : jsstring) (chunkSize overlap : Z) :
  Forall (fun p => is_trimmed (piece_text p)) (chunkText text chunkSize overlap).
Proof.
  assert (Hpush : forall chunks cur idx,
             Forall (fun p => is_trimmed (piece_text p)) chunks ->
             Forall (fun p => is_trimmed (piece_text p))
                    (chunks ++ [mkPiece (trim cur) idx])).
  { intros chunks cur idx H. apply Forall_app. split; [exact H|].
    constructor; [apply trim_is_trimmed | constructor]. }
  unfold chunkText. destruct (_ && _).
  - unfold splitBySentences. apply final_flush_trimmed, loop_trimmed; [|constructor].
    intros [[chunks cur] idx] part H. unfold sentence_step.
    destruct (overflows chunkSize cur part); cbn [fst] in *; auto.
  - unfold splitByParagraphs. apply final_flush_trimmed, loop_trimmed; [|constructor].
    intros [[chunks cur] idx] part H. unfold paragraph_step.
    destruct (overflows chunkSize cur part); cbn [fst] in *; auto.
Qed.

(** *** What [chunkText] returns *)

Example split_blank_lines_ex :
  split_blank_lines false (lit "a" ++ [LF; LF; LF] ++ lit "b" ++ [LF] ++ lit "c" ++ [LF; LF])
  = [lit "a"; lit "b" ++ [LF] ++ lit "c"; []].
Proof. reflexivity. Qed.

Example split_sentences_ex :
  split_sentences false false (lit " Hi.  Is it? yes  no! ")
  = [lit " Hi."; lit "Is it?"; lit "yes  no!"; []].
Proof. reflexivity. Qed.

Example three_paragraphs_one_chunk :
  map piece_text
    (chunkText (lit "Para one." ++ [LF; LF] ++ lit "Para two." ++ [LF; LF] ++ lit "Para three.") 1000 200)
  = [lit "Para one." ++ [LF; LF] ++ lit "Para two." ++ [LF; LF] ++ lit "Para three."].
Proof. reflexivity. Qed.

(** Two line feeds in a row: what the paragraph split looks for. *)
Fixpoint has_blank_line (s : jsstring) : bool :=
  match s with
  | c :: (c' :: _) as s' => (c =? LF)%N && (c' =? LF)%N || has_blank_line s'
  | _ => false
  end.

Lemma split_blank_lines_none (s : jsstring) :
  has_blank_line s = false -> split_blank_lines false s = [s].
Proof.
  induction s as [|c s IH]; [reflexivity|].
  intros H. cbn [split_blank_lines andb].
  destruct s as [|c' s']; [reflexivity|].
  cbn [has_blank_line] in H. apply orb_false_iff in H as [H1 H2].
  rewrite H1, (IH H2). reflexivity.
Qed.

Lemma final_flush_length (chunks : list Piece) (currentChunk : jsstring) (i : Z) :
  length (final_flush (chunks, currentChunk, i)) <= S (length chunks).
Proof.
  unfold final_flush. destruct (truthy (trim currentChunk)).
  - rewrite length_app. simpl. lia.
  - lia.
Qed.

(** A text without blank line is one paragraph and gives at most one
    chunk. *)
Lemma splitByParagraphs_one_paragraph (text : jsstring) (chunkSize : Z) :
  has_blank_line text = false ->
  length (splitByParagraphs text chunkSize) <= 1.
Proof.
  intros H. unfold splitByParagraphs. rewrite (split_blank_lines_none _ H).
  cbn [fold_left paragraph_step]. unfold overflows.
  change (len [] >? 0)%Z with false. rewrite andb_false_r.
  apply final_flush_length.
Qed.

(** C5, as amended. For a text that holds something other than
    whitespace, [chunkText] returns at least one chunk, and the chunk
    texts in output order spell the text modulo whitespace, once the
    overlap, which repeats the end of the chunk before, is taken out of
    each. *)
Theorem chunkText_covers_document (text : jsstring) (chunkSize overlap : Z) :
  has_content text ->
  chunkText text chunkSize overlap <> []
  /\ covers [] (texts_mod_ws (chunkText text chunkSize overlap)) (squash text).
Proof.
  intros H. assert (Hc := chunkText_covers text chunkSize overlap).
  split; [|exact Hc].
  intros E. apply (covers_nonempty Hc (has_content_squash H)).
  now rewrite E.
Qed.

Lemma chunkText_covers_document_witness :
  chunkText (lit "One. Two." ++ [LF; LF] ++ lit "Three.") 10 200 <> []
  /\ covers []
       (texts_mod_ws (chunkText (lit "One. Two." ++ [LF; LF] ++ lit "Three.") 10 200))
       (squash (lit "One. Two." ++ [LF; LF] ++ lit "Three.")).
Proof.
  apply chunkText_covers_document.
  exists 79%N. split; [now left | reflexivity].
Defined.

Example chunkText_overlap :
  map piece_text (chunkText (lit "One. Two." ++ [LF; LF] ++ lit "Three.") 10 200)
  = [lit "One. Two."; lit "One. Two. Three."].
Proof. reflexivity. Qed.

(** C5 as stated fails: a text of one space is not empty, and [chunkText]
    returns no chunk for it. *)
Lemma chunkText_whitespace_only :
  lit " " <> [] /\ chunkText (lit " ") 1500 200 = [].
Proof. split; [discriminate | reflexivity]. Qed.


(** A document of 2000 code units without a blank line: 100 sentences of
    19 code units, a space after each. *)
Definition plain_document : jsstring :=
  concat (repeat (lit "It is a short line. ") 100).


Example plain_document_chunks :
  map (fun p => (len (piece_text p), piece_index p)) (chunkText plain_document 1500 200)
  = [(1499%Z, 0%Z); (499%Z, 1%Z)].
Proof. vm_compute. reflexivity. Qed.

(** A document whose first paragraph is two spaces, followed by two
    paragraphs of 1500 letters. *)
Definition blank_first_paragraph : jsstring :=
  lit "  " ++ [LF; LF] ++ repeat 97%N 1500 ++ [LF; LF] ++ repeat 98%N 1500.

(** C7 fails on the paragraph path: the flush inside the loop pushes the
    buffer when it is not empty, also when it holds whitespace only, and
    the chunk it pushes has an empty text. *)
Lemma chunkText_empty_chunk :
  nth_error (chunkText_default blank_first_paragraph) 0 = Some (mkPiece [] 0)
  /\ map (fun p => (len (piece_text p), piece_index p))
         (chunkText_default blank_first_paragraph)
     = [(0%Z, 0%Z); (1500%Z, 1%Z); (3001%Z, 2%Z)].
Proof. split; vm_compute; reflexivity. Qed.

(** ** Facts about [slice] and [sort] *)

Lemma js_slice_firstn (A : Type) (l : list A) (k : nat) :
  js_slice l 0 (Z.of_nat k) = firstn k l.
Proof.
  unfold js_slice, rel_index. cbn [skipn Z.to_nat Z.ltb Z.compare].
  replace (Z.min 0 (Z.of_nat (length l))) with 0%Z by lia.
  cbn [skipn Z.to_nat].
  destruct (Z.ltb_spec (Z.of_nat k) 0); [lia|].
  rewrite Z.sub_0_r.
  destruct (Nat.le_gt_cases k (length l)).
  - f_equal. lia.
  - rewrite !firstn_all2 by lia. reflexivity.
Qed.

Section SortFacts.

Context {num : Type} {numeric : Number num}.
Variable A : Type.
Variable comparefn : A -> A -> num.

Local Abbreviation after := (goes_after comparefn).

(** ECMAScript asks [comparefn] to be consistent on the values it sorts.
    Of that, a stable sort needs these two properties: no two values go
    after each other, and going after is negatively transitive. *)
Definition consistent_on (dom : list A) : Prop :=
  (forall x y, In x dom -> In y dom -> after x y = true -> after y x = false)
  /\ (forall x y z, In x dom -> In y dom -> In z dom ->
        after x y = false -> after y z = false -> after x z = false).

(** No element of the list goes after a later one. *)
Definition ordered (l : list A) : Prop :=
  StronglySorted (fun x y => after x y = false) l.

(** Neither of two values goes after the other: a tie. *)
Definition tied (x y : A) : bool := negb (after x y) && negb (after y x).

Lemma sort_insert_perm (x : A) (l : list A) :
  Permutation (sort_insert comparefn x l) (x :: l).
Proof.
  induction l as [|y l IH]; simpl; [reflexivity|].
  destruct (after x y); [|reflexivity].
  rewrite IH. apply perm_swap.
Qed.

Lemma js_sort_perm (l : list A) : Permutation (js_sort comparefn l) l.
Proof.
  induction l as [|x l IH]; simpl; [reflexivity|].
  rewrite sort_insert_perm. now constructor.
Qed.

Lemma js_sort_in (l : list A) (x : A) : In x (js_sort comparefn l) <-> In x l.
Proof.
  split; apply Permutation_in; [|symmetry]; apply js_sort_perm.
Qed.

Lemma sort_insert_ordered (dom : list A) (x : A) (l : list A) :
  consistent_on dom -> In x dom -> incl l dom ->
  ordered l -> ordered (sort_insert comparefn x l).
Proof.
  intros [Hasym Hneg] Hx. induction l as [|y l IH]; intros Hl Hord; simpl.
  - repeat constructor.
  - assert (Hy : In y dom) by (apply Hl; now left).
    assert (Hl' : incl l dom) by (intros z Hz; apply Hl; now right).
    inversion Hord as [|? ? Hord' Hall]; subst.
    destruct (after x y) eqn:E.
    + constructor; [now apply IH|].
      eapply Permutation_Forall; [symmetry; apply sort_insert_perm|].
      constructor; [now apply Hasym | exact Hall].
    + constructor; [exact Hord|].
      constructor; [exact E|].
      rewrite Forall_forall in *. intros z Hz.
      apply (Hneg x y z); auto.
Qed.

Lemma js_sort_ordered (dom l : list A) :
  consistent_on dom -> incl l dom -> ordered (js_sort comparefn l).
Proof.
  intros Hc. induction l as [|x l IH]; intros Hl; simpl; [constructor|].
  apply (sort_insert_ordered (dom := dom)); auto.
  - apply Hl. now left.
  - intros z Hz. apply Hl. right. now apply js_sort_in.
  - apply IH. intros z Hz. apply Hl. now right.
Qed.

Lemma sort_insert_stable (dom : list A) (z x : A) (l : list A) :
  consistent_on dom -> In z dom -> In x dom -> incl l dom ->
  filter (tied z) (sort_insert comparefn x l) = filter (tied z) (x :: l).
Proof.
  intros [Hasym Hneg] Hz Hx. induction l as [|y l IH]; intros Hl; [reflexivity|].
  assert (Hy : In y dom) by (apply Hl; now left).
  assert (Hl' : incl l dom) by (intros u Hu; apply Hl; now right).
  cbn [sort_insert]. destruct (after x y) eqn:E; [|reflexivity].
  cbn [filter]. rewrite (IH Hl'). cbn [filter].
  destruct (tied z y) eqn:Ty, (tied z x) eqn:Tx; try reflexivity.
  exfalso. unfold tied in Ty, Tx.
  apply andb_true_iff in Ty as [Ty1 Ty2], Tx as [Tx1 Tx2].
  apply negb_true_iff in Ty1, Ty2, Tx1, Tx2.
  rewrite (Hneg x z y Hx Hz Hy Tx2 Ty1) in E. discriminate.
Qed.

(** The sort is stable: values that tie keep their order. *)
Lemma js_sort_stable (dom : list A) (z : A) (l : list A) :
  consistent_on dom -> In z dom -> incl l dom ->
  filter (tied z) (js_sort comparefn l) = filter (tied z) l.
Proof.
  intros Hc Hz. induction l as [|x l IH]; intros Hl; [reflexivity|].
  assert (Hl' : incl l dom) by (intros u Hu; apply Hl; now right).
  cbn [js_sort fold_right]. fold (js_sort comparefn l).
  rewrite (sort_insert_stable (dom := dom)); auto.
  - cbn [filter]. now rewrite (IH Hl').
  - apply Hl. now left.
  - intros u Hu. apply Hl'. now apply js_sort_in.
Qed.

End SortFacts.

(** A decision procedure for [consistent_on]. *)
Section ConsistencyCheck.

Context {num : Type} {numeric : Number num}.
Variable A : Type.
Variable comparefn : A -> A -> num.

Definition consistent_onb (dom : list A) : bool :=
  forallb (fun x =>
    forallb (fun y =>
      (negb (goes_after comparefn x y) || negb (goes_after comparefn y x))
      && forallb (fun z =>
           goes_after comparefn x y || goes_after comparefn y z
           || negb (goes_after comparefn x z)) dom) dom) dom.

Lemma consistent_onb_sound (dom : list A) :
  consistent_onb dom = true -> consistent_on comparefn dom.
Proof.
  unfold consistent_onb. rewrite forallb_forall. intros H. split.
  - intros x y Hx Hy E. specialize (H x Hx).
    rewrite forallb_forall in H. specialize (H y Hy).
    apply andb_true_iff in H as [H _]. rewrite E in H.
    simpl in H. now apply negb_true_iff.
  - intros x y z Hx Hy Hz E1 E2. specialize (H x Hx).
    rewrite forallb_forall in H. specialize (H y Hy).
    apply andb_true_iff in H as [_ H].
    rewrite forallb_forall in H. specialize (H z Hz).
    rewrite E1, E2 in H. simpl in H. now apply negb_true_iff.
Qed.

End ConsistencyCheck.

(** ** Properties of the vector store *)

Section StoreFacts.

Context {num : Type} {numeric : Number num}.

(** The hits of a ranked result, best first. *)
Definition ranked_by_score (ranking : list (Hit num)) : Prop :=
  StronglySorted
    (fun a b => num_is_positive (num_sub (score b) (score a)) = false) ranking.

Lemma js_slice_nil (A : Type) (start stop : Z) : js_slice (@nil A) start stop = [].
Proof. unfold js_slice. now rewrite skipn_nil, firstn_nil. Qed.

Lemma findSimilar_fallback (store : RAGStore num) (topK : Z) :
  findSimilar store None topK = map unranked (js_slice (chunks store) 0 topK)
  /\ findSimilar store (Some []) topK
     = map unranked (js_slice (chunks store) 0 topK).
Proof.
  unfold findSimilar. destruct (chunks store); [|now split].
  now rewrite js_slice_nil.
Qed.

Lemma findSimilar_query (store : RAGStore num) (q : list num) (topK : Z) :
  chunks store <> [] -> q <> [] ->
  findSimilar store (Some q) topK
  = js_slice (js_sort by_score_desc (map (scored q) (chunks store))) 0 topK.
Proof.
  unfold findSimilar. destruct (chunks store); [contradiction|].
  destruct q; [contradiction | reflexivity].
Qed.

Lemma in_firstn (A : Type) (x : A) (n : nat) (l : list A) :
  In x (firstn n l) -> In x l.
Proof.
  revert l. induction n as [|n IH]; intros [|y l]; simpl; try tauto.
  intros [Hx | Hx]; auto.
Qed.

Lemma in_skipn (A : Type) (x : A) (n : nat) (l : list A) :
  In x (skipn n l) -> In x l.
Proof.
  revert l. induction n as [|n IH]; intros [|y l]; simpl; auto.
Qed.

Lemma js_slice_incl (A : Type) (l : list A) (start stop : Z) :
  incl (js_slice l start stop) l.
Proof.
  unfold js_slice. intros x Hx.
  apply in_firstn in Hx. now apply in_skipn in Hx.
Qed.

(** Whatever [findSimilar] returns is a chunk of the store. *)
Lemma findSimilar_in_store (store : RAGStore num)
    (queryEmbedding : option (list num)) (topK : Z) (h : Hit num) :
  In h (findSimilar store queryEmbedding topK) ->
  In (hit_chunk h) (chunks store).
Proof.
  unfold findSimilar. destruct (chunks store) as [|c cs] eqn:E; [contradiction|].
  assert (Hplain : In h (map unranked (js_slice (c :: cs) 0 topK)) ->
                   In (hit_chunk h) (c :: cs)).
  { intros Hin. apply in_map_iff in Hin as (c' & <- & Hin).
    now apply js_slice_incl in Hin. }
  destruct queryEmbedding as [[|x q]|]; try exact Hplain.
  intros Hin. apply js_slice_incl in Hin. apply js_sort_in in Hin.
  apply in_map_iff in Hin as (c' & <- & Hin). exact Hin.
Qed.

(** C2. With an absent or an empty query embedding, [findSimilar] returns
    the first [k] chunks in insertion order, unranked: [min k chunkCount]
    of them. An empty store gives an empty result whatever the query. *)
Theorem findSimilar_positional (store : RAGStore num) (k : nat) :
  let first_k := map unranked (firstn k (chunks store)) in
  findSimilar store None (Z.of_nat k) = first_k
  /\ findSimilar store (Some []) (Z.of_nat k) = first_k
  /\ length first_k = Nat.min k (length (chunks store))
  /\ (forall title queryEmbedding,
        findSimilar (mkStore [] title) queryEmbedding (Z.of_nat k) = []).
Proof.
  cbv zeta. destruct (findSimilar_fallback store (Z.of_nat k)) as [H1 H2].
  rewrite js_slice_firstn in H1, H2.
  repeat split; auto.
  now rewrite length_map, length_firstn.
Qed.

(** C1, as amended. For a store with at least one chunk and a present,
    non-empty query embedding on whose scores the comparator
    [b.score - a.score] is consistent, [findSimilar] scores every chunk by
    its cosine similarity to the query, and a chunk whose embedding is
    absent or empty by 0; it orders the scored chunks so that none comes
    before one with a greater score and those that tie keep their insertion
    order; it returns the first [k] of them. A chunk without embedding is
    ranked by its score of 0 like any other chunk. *)
Theorem findSimilar_ranked (store : RAGStore num) (q : list num) (k : nat) :
  chunks store <> [] ->
  q <> [] ->
  consistent_on by_score_desc (map (scored q) (chunks store)) ->
  exists ranking,
    findSimilar store (Some q) (Z.of_nat k) = firstn k ranking
    /\ Permutation ranking (map (scored q) (chunks store))
    /\ ranked_by_score ranking
    /\ (forall h, In h ranking ->
          filter (tied by_score_desc h) ranking
          = filter (tied by_score_desc h) (map (scored q) (chunks store)))
    /\ Forall (fun h =>
          hit_score h
          = Some (if has_embedding (hit_chunk h)
                  then cosineSimilarity (Some q) (chunk_embedding (hit_chunk h))
                  else num_zero)) ranking.
Proof.
  intros Hstore Hq Hcons.
  set (hits := map (scored q) (chunks store)) in *.
  exists (js_sort by_score_desc hits).
  assert (Hperm := js_sort_perm by_score_desc hits).
  split; [|split; [|split; [|split]]].
  - rewrite findSimilar_query by assumption. apply js_slice_firstn.
  - exact Hperm.
  - apply (js_sort_ordered (dom := hits)); [exact Hcons | apply incl_refl].
  - intros h Hh. apply (js_sort_stable (dom := hits));
      [exact Hcons | now apply (Permutation_in h Hperm) | apply incl_refl].
  - eapply Permutation_Forall; [symmetry; exact Hperm|].
    subst hits. rewrite Forall_map. now apply Forall_forall.
Qed.

End StoreFacts.

(** ** The store on IEEE doubles *)

(** The chunk number [id], with the text [chunk] followed by that digit. *)
Definition sample_chunk (id : Z) (embedding : option (list float)) : Chunk float :=
  mkChunk id (lit "chunk" ++ [(48 + Z.to_N id)%N]) embedding None.

(** Three chunks: one along the query [[1; 0]], one without embedding, one
    against the query. *)
Definition sample_store : RAGStore float :=
  mkStore
    [sample_chunk 0 (Some [(-1)%float; 0%float]);
     sample_chunk 1 (Some []);
     sample_chunk 2 (Some [1%float; 0%float]);
     sample_chunk 3 None]
    (lit "title").

Example findSimilar_sample :
  map (fun h => (chunk_id (hit_chunk h), hit_score h))
      (findSimilar sample_store (Some [1%float; 0%float]) 3)
  = [(2%Z, Some 1%float); (1%Z, Some 0%float); (3%Z, Some 0%float)].
Proof. vm_compute. reflexivity. Qed.

Lemma findSimilar_ranked_witness :
  exists ranking,
    findSimilar sample_store (Some [1%float; 0%float]) (Z.of_nat 3)
    = firstn 3 ranking
    /\ ranked_by_score ranking.
Proof.
  destruct (@findSimilar_ranked float Double sample_store [1%float; 0%float] 3)
    as (ranking & E & _ & S & _).
  - discriminate.
  - discriminate.
  - apply consistent_onb_sound. vm_compute. reflexivity.
  - exists ranking. split; assumption.
Defined.

(** C1 as stated fails: a chunk with an empty embedding scores 0 and comes
    before a chunk whose embedding points away from the query, so it is
    not last. *)
Lemma findSimilar_empty_embedding_not_last :
  map (fun h => (chunk_id (hit_chunk h), has_embedding (hit_chunk h), hit_score h))
      (findSimilar
         (mkStore [sample_chunk 0 (Some []); sample_chunk 1 (Some [(-1)%float])]
                  (lit "title"))
         (Some [1%float]) 2)
  = [(0%Z, false, Some 0%float); (1%Z, true, Some (-1)%float)].
Proof. vm_compute. reflexivity. Qed.

(** A score that is not a number makes the comparator inconsistent, and
    the order is no longer by score: the second chunk's sums overflow, its
    score is NaN, and the chunk that scores 1 ends behind both others. *)
Example findSimilar_nan_score :
  let store :=
    mkStore
      [sample_chunk 0 (Some [0%float; 1%float]);
       sample_chunk 1 (Some [0x1p1000%float; 0%float]);
       sample_chunk 2 (Some [1%float; 0%float])]
      (lit "title") in
  let q := [0x1p100%float; 1%float] in
  consistent_onb by_score_desc (map (scored q) (chunks store)) = false
  /\ map (fun h => (chunk_id (hit_chunk h), score h))
         (findSimilar store (Some q) 3)
     = [(0%Z, 0x1p-100%float); (1%Z, nan); (2%Z, 1%float)].
Proof. split; vm_compute; reflexivity. Qed.

(** ** The store on exact numbers *)

Lemma exact_is_positive (x : R) : @num_is_positive R Exact x = true <-> (0 < x)%R.
Proof.
  simpl. destruct (Rlt_dec 0 x); split; intros; auto; try discriminate; contradiction.
Qed.

Lemma exact_is_positive_false (x : R) :
  @num_is_positive R Exact x = false <-> (x <= 0)%R.
Proof.
  simpl. destruct (Rlt_dec 0 x); split; intros; auto; try discriminate; lra.
Qed.

(** On exact numbers the comparator is consistent on every list. *)
Lemma exact_consistent (hits : list (Hit R)) :
  consistent_on (by_score_desc (num := R)) hits.
Proof.
  unfold consistent_on, goes_after, by_score_desc. split.
  - intros x y _ _ H. apply exact_is_positive in H.
    apply exact_is_positive_false. simpl in *. lra.
  - intros x y z _ _ _ H1 H2.
    apply exact_is_positive_false in H1, H2.
    apply exact_is_positive_false. simpl in *. lra.
Qed.

(** On exact numbers the ranking is by descending score, for every store
    and query. *)
Lemma findSimilar_exact_descending (store : RAGStore R) (q : list R) (k : nat) :
  chunks store <> [] -> q <> [] ->
  exists ranking,
    findSimilar store (Some q) (Z.of_nat k) = firstn k ranking
    /\ Permutation ranking (map (scored q) (chunks store))
    /\ StronglySorted (fun a b => (score a >= score b)%R) ranking.
Proof.
  intros Hs Hq.
  exists (js_sort by_score_desc (map (scored q) (chunks store))).
  split; [|split].
  - rewrite findSimilar_query by assumption. apply js_slice_firstn.
  - apply js_sort_perm.
  - assert (H := js_sort_ordered (dom := map (scored q) (chunks store))
                   (exact_consistent _) (incl_refl _)).
    unfold ordered in H.
    induction H as [|a l Hl IH Ha]; constructor; [exact IH|].
    eapply Forall_impl; [|exact Ha].
    intros b Hb. unfold goes_after, by_score_desc in Hb.
    apply exact_is_positive_false in Hb. simpl in Hb. lra.
Qed.

(** ** Properties of cosine similarity *)

Section CosineFacts.

Context {num : Type} {numeric : Number num}.






(** C10. When either argument is null or undefined, or the two arrays
    differ in length, [cosineSimilarity] returns exactly 0: it reads no
    component and divides nothing. *)
Theorem cosineSimilarity_guard (a b : option (list num)) :
  a = None \/ b = None
  \/ (exists x y, a = Some x /\ b = Some y /\ length x <> length y) ->
  cosineSimilarity a b = num_zero.
Proof.
  intros [-> | [-> | (x & y & -> & -> & Hlen)]].
  - reflexivity.
  - now destruct a.
  - unfold cosineSimilarity.
    apply Nat.eqb_neq in Hlen. now rewrite Hlen.
Qed.

(** The laws of zero that the guard [normA === 0 || normB === 0] rests on. *)
Section ZeroLaws.

Hypothesis zero_is_zero : num_is_zero num_zero = true.
Hypothesis zero_plus_zero : num_add num_zero num_zero = num_zero.
Hypothesis zero_squared : forall x, num_is_zero x = true -> num_mul x x = num_zero.




End ZeroLaws.

End CosineFacts.

(** *** On IEEE doubles *)





(** *** Rounding on binary64 *)

(** The specification of binary64 that the primitive operations obey
    ([mul_spec], [div_spec], [sqrt_spec], [add_spec]) rounds a mantissa
    with [binary_round_aux]. What follows reads off it the mantissa and the
    exponent of a square root, of a product and of a quotient. *)
Section Binary64.

Local Open Scope Z_scope.












































Lemma SFmul_nan_l (y : spec_float) : SF64mul S754_nan y = S754_nan.
Proof. reflexivity. Qed.


Lemma SFadd_nan_l (y : spec_float) : SF64add S754_nan y = S754_nan.
Proof. reflexivity. Qed.






End Binary64.

(** *** The sums of the loop on doubles *)






(** *** Known values *)



(** On doubles a large component makes the sums overflow, and the
    similarity of the vector to itself is not a number. *)
Example cosineSimilarity_overflow :
  PrimFloat.is_nan
    (cosineSimilarity (Some [0x1p600%float]) (Some [0x1p600%float])) = true.
Proof. vm_compute. reflexivity. Qed.

Example cosineSimilarity_unit :
  cosineSimilarity (Some [3%float; 4%float]) (Some [3%float; 4%float]) = 1%float
  /\ cosineSimilarity (Some [1%float; 0%float]) (Some [0%float; 1%float]) = 0%float.
Proof. split; vm_compute; reflexivity. Qed.

(** The roundings show: the similarity of [[1; 1]] to itself is the double
    below 1. *)
Example cosineSimilarity_ones :
  cosineSimilarity (Some [1%float; 1%float]) (Some [1%float; 1%float])
  = 0x1.ffffffffffffep-1%float.
Proof. vm_compute. reflexivity. Qed.



Lemma cosineSimilarity_guard_witness :
  cosineSimilarity (Some [1%float; 2%float]) (Some [1%float]) = 0%float
  /\ cosineSimilarity None (Some [1%float]) = 0%float.
Proof.
  split.
  - apply (@cosineSimilarity_guard float Double).
    right. right. exists [1%float; 2%float], [1%float].
    repeat split. discriminate.
  - apply (@cosineSimilarity_guard float Double). now left.
Defined.

(** ** Properties of the embedding client *)

Section ClientFacts.

Context {num : Type} {numeric : Number num}.

Local Abbreviation World := (@World num).

(** The world once the next request has been answered. *)
Definition fetched (text : jsstring) (w : World) : World :=
  mkWorld (ragStore w) (provider w) (S (fetches w))
    (clock w + latency (provider w (fetches w) text)) (sleeps w) (progress w).

(** The world once a timer of [ms] milliseconds has been awaited. *)
Definition slept (ms : Z) (w : World) : World :=
  mkWorld (ragStore w) (provider w) (fetches w) (clock w + ms)
    (sleeps w ++ [ms]) (progress w).

(** The reply to the [k]-th request from now. *)
Definition nth_reply (w : World) (text : jsstring) (k : nat) : Reply (num := num) :=
  reply (provider w (k + fetches w) text).

(** HTTP 429: the rate-limit signal. *)
Definition rate_limited (r : Reply (num := num)) : Prop :=
  exists body, r = Responded 429 body.

(** A transport exception, a status other than 429 that is not ok, or an
    ok response whose body does not parse or holds no embedding. *)
Definition fails (r : Reply (num := num)) : Prop :=
  r = Rejected
  \/ (exists status body,
        r = Responded status body /\ status <> 429%Z /\ is_ok status = false)
  \/ (exists status,
        is_ok status = true
        /\ (r = Responded status Unparsable
            \/ r = Responded status (Parsed DataNull)
            \/ r = Responded status (Parsed DataWithoutValues))).

(** An ok response that carries an embedding. *)
Definition embeds (r : Reply (num := num)) (values : list num) : Prop :=
  exists status, is_ok status = true /\ r = Responded status (Parsed (DataValues values)).

Ltac run :=
  unfold attempt_once, try_catch, bind, fetch, sleep, json, embedding_values,
    ret, throw, fetched, slept, nth_reply in *; simpl in *.

Lemma is_ok_not_429 (status : Z) : is_ok status = true -> (status =? 429)%Z = false.
Proof. unfold is_ok. lia. Qed.

Lemma attempt_retry (text : jsstring) (retries attempt : Z) (w : World) :
  rate_limited (nth_reply w text 0) -> (attempt < retries)%Z ->
  attempt_once text retries attempt w
  = (Returns Continue, slept (2000 * (attempt + 1)) (fetched text w)).
Proof.
  intros [body H] Hlt. run. rewrite H. simpl.
  apply Z.ltb_lt in Hlt. now rewrite Hlt.
Qed.

Lemma attempt_exhausted (text : jsstring) (retries attempt : Z) (w : World) :
  rate_limited (nth_reply w text 0) -> (retries <= attempt)%Z ->
  attempt_once text retries attempt w = (Returns (Return None), fetched text w).
Proof.
  intros [body H] Hle. run. rewrite H. simpl.
  apply Z.ltb_ge in Hle. now rewrite Hle.
Qed.

Lemma attempt_fails (text : jsstring) (retries attempt : Z) (w : World) :
  fails (nth_reply w text 0) ->
  attempt_once text retries attempt w = (Returns (Return None), fetched text w).
Proof.
  intros [H | [(status & body & H & Hs & Hok) | (status & Hok & [H | [H | H]])]];
    run; rewrite H; simpl; try reflexivity.
  - apply Z.eqb_neq in Hs. now rewrite Hs, Hok.
  - now rewrite (is_ok_not_429 _ Hok), Hok.
  - now rewrite (is_ok_not_429 _ Hok), Hok.
  - now rewrite (is_ok_not_429 _ Hok), Hok.
Qed.

Lemma attempt_embeds (text : jsstring) (retries attempt : Z) (w : World)
    (values : list num) :
  embeds (nth_reply w text 0) values ->
  attempt_once text retries attempt w
  = (Returns (Return (Some values)), fetched text w).
Proof.
  intros (status & Hok & H). run. rewrite H. simpl.
  now rewrite (is_ok_not_429 _ Hok), Hok.
Qed.

(** What a call leaves untouched: the store, the provider and the
    progress reports. *)
Definition same_store (w w' : World) : Prop :=
  ragStore w' = ragStore w /\ provider w' = provider w /\ progress w' = progress w.

(** An iteration of the retry loop never throws. *)
Lemma attempt_once_returns (text : jsstring) (retries attempt : Z) (w : World) :
  exists it w', attempt_once text retries attempt w = (Returns it, w')
                /\ same_store w w'.
Proof.
  run. destruct (reply (provider w (fetches w) text)) as [|status body]; simpl.
  - eexists _, _. split; [reflexivity | now repeat split].
  - destruct (status =? 429)%Z.
    + destruct (attempt <? retries)%Z;
        eexists _, _; (split; [reflexivity | now repeat split]).
    + destruct (negb (is_ok status)); simpl.
      * eexists _, _. split; [reflexivity | now repeat split].
      * destruct body as [|[| |values]]; simpl;
          eexists _, _; (split; [reflexivity | now repeat split]).
Qed.

Lemma retry_loop_returns (fuel : nat) (text : jsstring) (retries : Z) :
  forall attempt (w : World),
  exists v w', retry_loop fuel text retries attempt w = (Returns v, w')
               /\ same_store w w'.
Proof.
  induction fuel as [|fuel IH]; intros attempt w; cbn [retry_loop].
  - exists None, w. split; [reflexivity | now repeat split].
  - destruct (attempt <=? retries)%Z.
    + unfold bind.
      destruct (attempt_once_returns text retries attempt w)
        as (it & w1 & E & S1 & S2 & S3).
      rewrite E. destruct it as [|v].
      * destruct (IH (attempt + 1)%Z w1) as (v & w2 & E2 & T1 & T2 & T3).
        exists v, w2. split; [exact E2|].
        repeat split; congruence.
      * exists v, w1. split; [reflexivity | now repeat split].
    + exists None, w. split; [reflexivity | now repeat split].
Qed.

Lemma generateEmbeddingWithRetry_returns (text : jsstring) (retries : Z) (w : World) :
  exists v w', generateEmbeddingWithRetry text retries w = (Returns v, w')
               /\ same_store w w'.
Proof. apply retry_loop_returns. Qed.

Lemma retry_loop_S (fuel : nat) (text : jsstring) (retries attempt : Z) (w : World) :
  retry_loop (S fuel) text retries attempt w
  = if (attempt <=? retries)%Z then
      match attempt_once text retries attempt w with
      | (Returns Continue, w1) => retry_loop fuel text retries (attempt + 1) w1
      | (Returns (Return v), w1) => (Returns v, w1)
      | (Throws e, w1) => (Throws e, w1)
      end
    else (Returns None, w).
Proof.
  cbn [retry_loop]. destruct (attempt <=? retries)%Z; [|reflexivity].
  unfold bind. now destruct (attempt_once text retries attempt w) as [[[|v]|e] w1].
Qed.

(** The loop has the iterations it needs: from [retries + 1 - attempt]
    iterations on, more fuel changes nothing. *)
Lemma retry_loop_fuel (text : jsstring) (retries : Z) (fuel : nat) :
  forall attempt (w : World),
    (retries + 1 - attempt <= Z.of_nat fuel)%Z ->
    retry_loop (S fuel) text retries attempt w
    = retry_loop fuel text retries attempt w.
Proof.
  induction fuel as [|fuel IH]; intros attempt w Hf.
  - cbn [retry_loop]. destruct (Z.leb_spec attempt retries); [lia | reflexivity].
  - rewrite (retry_loop_S (S fuel)), (retry_loop_S fuel).
    destruct (attempt <=? retries)%Z; [|reflexivity].
    destruct (attempt_once text retries attempt w) as [[[|v]|e] w1];
      try reflexivity.
    apply IH. lia.
Qed.

(** The delays of an exponential backoff from 2 seconds: 2000 * 2^j
    milliseconds before retry [j + 1]. *)
Definition backoff (k : nat) : list Z :=
  map (fun j => (2000 * 2 ^ Z.of_nat j)%Z) (seq 0 k).

Lemma nth_reply_next (text : jsstring) (ms : Z) (w : World) (k : nat) :
  nth_reply (slept ms (fetched text w)) text k = nth_reply w text (S k).
Proof.
  unfold nth_reply, slept, fetched. simpl. now rewrite Nat.add_succ_r.
Qed.

Lemma retry_loop_retry (fuel : nat) (text : jsstring) (retries attempt : Z) (w : World) :
  rate_limited (nth_reply w text 0) -> (attempt < retries)%Z ->
  retry_loop (S fuel) text retries attempt w
  = retry_loop fuel text retries (attempt + 1)
      (slept (2000 * (attempt + 1)) (fetched text w)).
Proof.
  intros H Hlt. rewrite retry_loop_S, attempt_retry by assumption.
  destruct (Z.leb_spec attempt retries); [reflexivity | lia].
Qed.

Lemma retry_loop_exhausted (fuel : nat) (text : jsstring) (retries : Z) (w : World) :
  rate_limited (nth_reply w text 0) ->
  retry_loop (S fuel) text retries retries w = (Returns None, fetched text w).
Proof.
  intros H. rewrite retry_loop_S, attempt_exhausted by (assumption || lia).
  now rewrite Z.leb_refl.
Qed.

Lemma retry_loop_fails (fuel : nat) (text : jsstring) (retries attempt : Z) (w : World) :
  fails (nth_reply w text 0) -> (attempt <= retries)%Z ->
  retry_loop (S fuel) text retries attempt w = (Returns None, fetched text w).
Proof.
  intros H Hle. rewrite retry_loop_S, attempt_fails by assumption.
  apply Z.leb_le in Hle. now rewrite Hle.
Qed.

Lemma retry_loop_embeds (fuel : nat) (text : jsstring) (retries attempt : Z)
    (w : World) (values : list num) :
  embeds (nth_reply w text 0) values -> (attempt <= retries)%Z ->
  retry_loop (S fuel) text retries attempt w = (Returns (Some values), fetched text w).
Proof.
  intros H Hle. rewrite retry_loop_S, (attempt_embeds _ _ _ _ H).
  apply Z.leb_le in Hle. now rewrite Hle.
Qed.

(** With the default budget of 2 retries: once the first [k] replies were
    rate-limit signals and the next one settles the call, the call has
    sent [k + 1] requests and has backed off [k] times. *)
Lemma default_budget_settles (text : jsstring) (w : World) (k : nat)
    (v : option (list num)) :
  k <= 2 ->
  (forall j, j < k -> rate_limited (nth_reply w text j)) ->
  (fails (nth_reply w text k) /\ v = None
   \/ exists values, embeds (nth_reply w text k) values /\ v = Some values) ->
  exists w',
    generateEmbeddingWithRetry text 2 w = (Returns v, w')
    /\ fetches w' = fetches w + k + 1
    /\ sleeps w' = sleeps w ++ backoff k.
Proof.
  intros Hk Hrl Hsettle.
  assert (Hend : forall fuel attempt w0,
             (attempt <= 2)%Z ->
             (fails (nth_reply w0 text 0) /\ v = None
              \/ exists values, embeds (nth_reply w0 text 0) values /\ v = Some values) ->
             retry_loop (S fuel) text 2 attempt w0 = (Returns v, fetched text w0)).
  { intros fuel attempt w0 Ha [[Hf ->] | (values & He & ->)].
    - now apply retry_loop_fails.
    - now apply retry_loop_embeds. }
  unfold generateEmbeddingWithRetry. change (Z.to_nat (2 + 1)) with 3.
  destruct k as [|[|[|k]]]; [| | |lia].
  - eexists. split; [apply Hend; [lia | exact Hsettle]|].
    simpl. split; [lia | now rewrite app_nil_r].
  - rewrite retry_loop_retry by (try apply Hrl; lia).
    eexists. split; [apply Hend; [lia | now rewrite nth_reply_next]|].
    simpl. split; [lia | reflexivity].
  - rewrite retry_loop_retry by (try apply Hrl; lia).
    rewrite retry_loop_retry by (try (rewrite nth_reply_next; apply Hrl); lia).
    eexists. split; [apply Hend; [lia | now rewrite !nth_reply_next]|].
    simpl. split; [lia | now rewrite <- app_assoc].
Qed.

(** C4. [generateEmbeddingWithRetry] never throws, whatever the provider
    does and whatever the retry budget. With the default budget of 2: a
    transport exception, a status that is neither 429 nor ok, and an ok
    response whose body does not parse or holds no embedding each make it
    return null at once, with no further request; a rate-limit signal makes
    it wait 2000 * 2^j milliseconds and try again, up to 2 retries, and a
    third rate-limit signal makes it return null. *)
Theorem generateEmbeddingWithRetry_never_throws (text : jsstring) (w : World) :
  (forall retries,
      exists v w', generateEmbeddingWithRetry text retries w = (Returns v, w'))
  /\ (forall k, k <= 2 ->
        (forall j, j < k -> rate_limited (nth_reply w text j)) ->
        fails (nth_reply w text k) ->
        exists w',
          generateEmbeddingWithRetry text 2 w = (Returns None, w')
          /\ fetches w' = fetches w + k + 1
          /\ sleeps w' = sleeps w ++ backoff k)
  /\ (forall k values, k <= 2 ->
        (forall j, j < k -> rate_limited (nth_reply w text j)) ->
        embeds (nth_reply w text k) values ->
        exists w',
          generateEmbeddingWithRetry text 2 w = (Returns (Some values), w')
          /\ fetches w' = fetches w + k + 1
          /\ sleeps w' = sleeps w ++ backoff k)
  /\ ((forall j, j <= 2 -> rate_limited (nth_reply w text j)) ->
        exists w',
          generateEmbeddingWithRetry text 2 w = (Returns None, w')
          /\ fetches w' = fetches w + 3
          /\ sleeps w' = sleeps w ++ [2000; 4000]%Z).
Proof.
  split; [|split; [|split]].
  - intros retries.
    destruct (generateEmbeddingWithRetry_returns text retries w) as (v & w' & E & _).
    now exists v, w'.
  - intros k Hk Hrl Hf. apply default_budget_settles; auto.
  - intros k values Hk Hrl He. apply default_budget_settles; auto.
    right. now exists values.
  - intros Hrl.
    unfold generateEmbeddingWithRetry. change (Z.to_nat (2 + 1)) with 3.
    rewrite retry_loop_retry by (try apply Hrl; lia).
    rewrite retry_loop_retry by (try (rewrite nth_reply_next; apply Hrl); lia).
    change (0 + 1 + 1)%Z with 2%Z.
    rewrite retry_loop_exhausted
      by (rewrite !nth_reply_next; apply Hrl; lia).
    eexists. split; [reflexivity|].
    simpl. split; [lia | now rewrite <- app_assoc].
Qed.

End ClientFacts.

(** ** Properties of the document session and of retrieval *)

Section SessionFacts.

Context {num : Type} {numeric : Number num}.

Local Abbreviation World := (@World num).

(** The chunk of the store that holds a piece of the document: its text,
    the embedding if one was obtained and the empty array otherwise, and
    the piece's index and the document's title as metadata. *)
Definition stored_as (title : jsstring) (p : Piece) (c : Chunk num) : Prop :=
  chunk_text c = piece_text p
  /\ exists embedding : option (list num),
       chunk_embedding c = Some (or_empty embedding)
       /\ chunk_metadata c
          = Some (mkMetadata (piece_index p) title (is_present embedding)).

Lemma process_chunks_appends (title : jsstring) (onProgress : bool) (total : Z)
    (todo : list Piece) :
  forall i (w : World),
  exists w' added,
    process_chunks title onProgress total i todo w = (Returns tt, w')
    /\ chunks (ragStore w') = chunks (ragStore w) ++ added
    /\ documentTitle (ragStore w') = documentTitle (ragStore w)
    /\ Forall2 (stored_as title) todo added
    /\ map chunk_id added
       = map Z.of_nat (seq (length (chunks (ragStore w))) (length todo)).
Proof.
  induction todo as [|p todo IH]; intros i w.
  - exists w, []. simpl. rewrite app_nil_r. repeat split. constructor.
  - cbn [process_chunks]. unfold bind at 1.
    set (w1 := snd ((if onProgress then report (i + 1) total else ret tt) w)).
    assert (E1 : (if onProgress then report (i + 1) total else ret tt) w
                 = (Returns tt, w1)) by (subst w1; now destruct onProgress).
    assert (S1 : ragStore w1 = ragStore w) by (subst w1; now destruct onProgress).
    rewrite E1. unfold bind at 1.
    destruct (generateEmbeddingWithRetry_returns (piece_text p) 2 w1)
      as (v & w2 & E2 & S2 & _).
    rewrite E2. unfold bind at 1, update_store at 1. unfold bind at 1, sleep at 1.
    match goal with |- context [process_chunks _ _ _ _ _ ?w3] =>
      destruct (IH (i + 1)%Z w3) as (w' & added & E & Hc & Ht & Hf & Hid)
    end.
    simpl in Hc, Ht, Hid. rewrite S2, S1 in Hc, Ht, Hid.
    rewrite length_app, Nat.add_1_r in Hid.
    eexists w', (_ :: added). split; [exact E|].
    split; [rewrite Hc, <- app_assoc; reflexivity|].
    split; [exact Ht|].
    split.
    + constructor; [|exact Hf]. split; [reflexivity|]. now exists v.
    + simpl. now rewrite Hid.
Qed.

Lemma Forall2_in_right (A B : Type) (R : A -> B -> Prop) (l : list A) (l' : list B) (y : B) :
  Forall2 R l l' -> In y l' -> exists x, In x l /\ R x y.
Proof.
  induction 1 as [|x y' l l' Hxy _ IH]; intros Hin; [contradiction|].
  destruct Hin as [-> | Hin].
  - exists x. split; [now left | exact Hxy].
  - destruct (IH Hin) as (x' & Hx' & Hr). exists x'. split; [now right | exact Hr].
Qed.

(** What a load leaves in the world, whatever was there before. *)
Lemma processDocument_loads (text title : jsstring) (onProgress : bool) (w : World) :
  exists n w',
    processDocument text title onProgress w = (Returns n, w')
    /\ documentTitle (ragStore w') = title
    /\ Forall2 (stored_as title) (chunkText_default text) (chunks (ragStore w'))
    /\ map chunk_id (chunks (ragStore w'))
       = map Z.of_nat (seq 0 (length (chunkText_default text)))
    /\ n = Z.of_nat (length (chunkText_default text))
    /\ n = size (ragStore w').
Proof.
  unfold processDocument. unfold bind at 1, update_store at 1.
  unfold bind at 1, update_store at 1. unfold bind at 1.
  match goal with |- context [process_chunks ?t ?c ?n ?i ?l ?w1] =>
    destruct (process_chunks_appends t c n l i w1)
      as (w' & added & E & Hc & Ht & Hf & Hid)
  end.
  rewrite E. simpl in Hc, Ht, Hid.
  unfold bind, get_store, ret, size. rewrite Hc.
  eexists _, w'. split; [reflexivity|].
  rewrite Hc. apply Forall2_length in Hf as Hlen.
  repeat split; auto; now rewrite Hlen.
Qed.

(** C3, as amended. A load that runs alone to its settlement never fails,
    whatever the store held and whatever the provider answers. It leaves
    in the store the title of the document and one chunk per chunk of
    [chunkText], in order and numbered from 0, with or without embedding,
    and nothing else; it returns their number. So when the load of B is
    called after the load of A has settled, the store holds the chunks of
    B alone, and every chunk [findSimilar] returns is one of B. *)
Theorem processDocument_replaces (textA titleA textB titleB : jsstring)
    (onProgressA onProgressB : bool) (w : World) :
  exists nA wA nB wB,
    processDocument textA titleA onProgressA w = (Returns nA, wA)
    /\ processDocument textB titleB onProgressB wA = (Returns nB, wB)
    /\ documentTitle (ragStore wB) = titleB
    /\ Forall2 (stored_as titleB) (chunkText_default textB) (chunks (ragStore wB))
    /\ map chunk_id (chunks (ragStore wB))
       = map Z.of_nat (seq 0 (length (chunkText_default textB)))
    /\ nB = Z.of_nat (length (chunkText_default textB))
    /\ nB = size (ragStore wB)
    /\ (forall queryEmbedding topK h,
          In h (findSimilar (ragStore wB) queryEmbedding topK) ->
          exists p, In p (chunkText_default textB)
                    /\ stored_as titleB p (hit_chunk h)).
Proof.
  destruct (processDocument_loads textA titleA onProgressA w) as (nA & wA & EA & _).
  destruct (processDocument_loads textB titleB onProgressB wA)
    as (nB & wB & EB & Ht & Hf & Hid & Hn & Hs).
  exists nA, wA, nB, wB. repeat split; auto.
  intros q k h Hin. apply findSimilar_in_store in Hin.
  eapply Forall2_in_right; eassumption.
Qed.

(** C9. On an empty store [retrieveContext] returns the empty string and
    asks the provider nothing. Otherwise it returns the texts of the chunks
    [findSimilar] selects, for the query embedding it obtained or for none,
    joined by the separator; it leaves the store as it was. The separator
    is a blank line, three hyphens and a blank line: it is not the
    paragraph break. *)
Theorem retrieveContext_joins (query : jsstring) (topK : Z) (w : World) :
  (chunks (ragStore w) = [] ->
   retrieveContext query topK w = (Returns [], w))
  /\ (chunks (ragStore w) <> [] ->
      exists queryEmbedding w',
        retrieveContext query topK w
        = (Returns
             (join separator
                (map (fun h => chunk_text (hit_chunk h))
                   (findSimilar (ragStore w) queryEmbedding topK))), w')
        /\ ragStore w' = ragStore w)
  /\ separator = [LF; LF] ++ lit "---" ++ [LF; LF]
  /\ separator <> [LF; LF].
Proof.
  split; [|split; [|split]].
  - intros Hs. unfold retrieveContext, bind, get_store, size.
    now rewrite Hs.
  - intros Hne. unfold retrieveContext. unfold bind at 1, get_store at 1.
    unfold size. destruct (chunks (ragStore w)) as [|c cs] eqn:Ec; [contradiction|].
    change (Z.of_nat (length (c :: cs)) =? 0)%Z with false. cbv iota.
    unfold bind at 1, try_catch, race_timeout.
    destruct (generateEmbeddingWithRetry_returns query 0 w) as (v & w1 & E & S1 & _).
    rewrite E.
    destruct (clock w1 - clock w <? 800)%Z.
    + exists v, w1. unfold bind, get_store, ret. now rewrite S1.
    + eexists None, _. unfold bind, get_store, ret. cbn [ragStore].
      now rewrite S1.
  - reflexivity.
  - discriminate.
Qed.

End SessionFacts.


(** ** Two worlds to run the client and the retrieval in *)

(** A provider that answers every request with the rate-limit signal. *)
Definition rate_limiting_world : World (num := float) :=
  mkWorld sample_store (fun _ _ => mkTimed 100 (Responded 429 Unparsable))
    0 0 [] [].

(** A provider that answers every request with the embedding [[1; 0]]
    after 100 milliseconds. *)
Definition answering_world : World (num := float) :=
  mkWorld sample_store
    (fun _ _ => mkTimed 100
                  (Responded 200 (Parsed (DataValues [1%float; 0%float]))))
    0 0 [] [].

Lemma generateEmbeddingWithRetry_never_throws_witness :
  exists w',
    generateEmbeddingWithRetry (lit "text") 2 rate_limiting_world
    = (Returns None, w')
    /\ fetches w' = 3
    /\ sleeps w' = [2000; 4000]%Z.
Proof.
  destruct (generateEmbeddingWithRetry_never_throws (lit "text") rate_limiting_world)
    as (_ & _ & _ & H).
  apply H. intros j _. now exists Unparsable.
Defined.

Lemma retrieveContext_joins_witness :
  exists queryEmbedding w',
    retrieveContext (lit "query") 2 answering_world
    = (Returns
         (join separator
            (map (fun h => chunk_text (hit_chunk h))
               (findSimilar (ragStore answering_world) queryEmbedding 2))), w')
    /\ ragStore w' = ragStore answering_world.
Proof.
  destruct (retrieveContext_joins (lit "query") 2 answering_world) as (_ & H & _).
  apply H. discriminate.
Defined.

Example retrieveContext_answer :
  fst (retrieveContext (lit "query") 2 answering_world)
  = Returns (lit "chunk2" ++ separator ++ lit "chunk1")
  /\ fst (retrieveContext (lit "query") 2 rate_limiting_world)
     = Returns (lit "chunk0" ++ separator ++ lit "chunk1").
Proof. split; vm_compute; reflexivity. Qed.

Example processDocument_without_embeddings :
  let '(n, w) := processDocument (lit "One. Two.") (lit "title") true
                   rate_limiting_world in
  n = Returns 1%Z
  /\ map (fun c => (chunk_id c, chunk_text c, chunk_embedding c))
         (chunks (ragStore w))
     = [(0%Z, lit "One. Two.", Some [])]
  /\ progress w = [(1%Z, 1%Z)]
  /\ fetches w = 3.
Proof. vm_compute. repeat split. Qed.

(** ** Loads that overlap *)

Section Overlap.

Context {num : Type} {numeric : Number num}.

Local Abbreviation World := (@World num).

(** [processDocument] gives the control back at each of its [await]s:
    while it waits for the embedding of a chunk (rag.js, line 186) and
    while it waits for the pause after it (line 200). Nothing in it or in
    its callers keeps a second call from starting meanwhile. What is left
    of a call at such a point: *)
Inductive Load :=
| Called (text title : jsstring) (onProgress : bool)
| AwaitingEmbedding (title : jsstring) (onProgress : bool) (total i : Z)
    (chunk : Piece) (todo : list Piece)
| AwaitingPause (title : jsstring) (onProgress : bool) (total i : Z)
    (todo : list Piece)
| Settled (count : Z).

(** The head of the loop: the test [i < chunks.length], the progress
    report and the call of [generateEmbeddingWithRetry], up to its
    [await]; after the last chunk, [return ragStore.size]. *)
Definition loop_head (title : jsstring) (onProgress : bool) (total i : Z)
    (todo : list Piece) : Async (num := num) Load :=
  match todo with
  | [] => bind get_store (fun s => ret (Settled (size s)))
  | chunk :: todo' =>
      bind (if onProgress then report (i + 1) total else ret tt)
        (fun _ => ret (AwaitingEmbedding title onProgress total i chunk todo'))
  end.

(** One stretch of a call, from where it was resumed to its next
    [await]. The requests of the embedding client are answered while the
    call waits; the store does not see them. *)
Definition resume (load : Load) : Async (num := num) Load :=
  match load with
  | Called text title onProgress =>
      bind (update_store clear) (fun _ =>
      bind (update_store (fun s => mkStore (chunks s) title)) (fun _ =>
      let pieces := chunkText_default text in
      loop_head title onProgress (Z.of_nat (length pieces)) 0 pieces))
  | AwaitingEmbedding title onProgress total i chunk todo =>
      bind (generateEmbeddingWithRetry (piece_text chunk) 2) (fun embedding =>
      bind (update_store (fun s =>
              addChunk s (piece_text chunk) (Some (or_empty embedding))
                (Some (mkMetadata (piece_index chunk) title (is_present embedding)))))
        (fun _ => ret (AwaitingPause title onProgress total i todo)))
  | AwaitingPause title onProgress total i todo =>
      bind (sleep 50) (fun _ => loop_head title onProgress total (i + 1) todo)
  | Settled count => ret (Settled count)
  end.

(** A call that runs alone: it is resumed until it settles. *)
Fixpoint alone (fuel : nat) (load : Load) : Async (num := num) Load :=
  match load, fuel with
  | Settled _, _ | _, O => ret load
  | _, S fuel' => bind (resume load) (alone fuel')
  end.

(** Two calls, resumed in the order of a schedule: [true] resumes the
    first one, [false] the second one. *)
Fixpoint interleave (schedule : list bool) (first second : Load)
  : Async (num := num) (Load * Load) :=
  match schedule with
  | [] => ret (first, second)
  | true :: schedule' =>
      bind (resume first) (fun first' => interleave schedule' first' second)
  | false :: schedule' =>
      bind (resume second) (fun second' => interleave schedule' first second')
  end.

Lemma alone_settled (fuel : nat) (count : Z) (w : World) :
  alone fuel (Settled count) w = (Returns (Settled count), w).
Proof. now destruct fuel. Qed.

Lemma loop_alone (title : jsstring) (onProgress : bool) (total : Z)
    (todo : list Piece) :
  forall i fuel (w : World),
    2 * length todo <= fuel ->
    match loop_head title onProgress total i todo w with
    | (Returns load, w') => alone fuel load w'
    | (Throws e, w') => (Throws e, w')
    end
    = match process_chunks title onProgress total i todo w with
      | (Returns _, w') => (Returns (Settled (size (ragStore w'))), w')
      | (Throws e, w') => (Throws e, w')
      end.
Proof.
  induction todo as [|chunk todo IH]; intros i fuel w Hfuel.
  - cbn [loop_head process_chunks]. unfold bind, get_store, ret.
    apply alone_settled.
  - cbn [length] in Hfuel. destruct fuel as [|[|fuel]]; try lia.
    specialize (IH (i + 1)%Z fuel).
    cbn [loop_head process_chunks]. unfold bind.
    destruct ((if onProgress then report (i + 1) total else ret tt) w)
      as [[[]|e] w1]; [|reflexivity].
    unfold ret at 1. cbn [alone resume]. unfold bind.
    destruct (generateEmbeddingWithRetry (piece_text chunk) 2 w1)
      as [[v|e] w2]; [|reflexivity].
    unfold update_store, ret, sleep. cbn [alone resume]. unfold bind, sleep.
    apply IH. lia.
Qed.

(** Run alone, the stretches of a call make up [processDocument]. *)
Lemma alone_processDocument (text title : jsstring) (onProgress : bool) (w : World) :
  alone (S (2 * length (chunkText_default text))) (Called text title onProgress) w
  = match processDocument text title onProgress w with
    | (Returns n, w') => (Returns (Settled n), w')
    | (Throws e, w') => (Throws e, w')
    end.
Proof.
  cbn [alone resume]. unfold processDocument, bind, update_store.
  rewrite loop_alone by lia.
  unfold get_store, ret.
  now destruct (process_chunks _ _ _ _ _ _) as [[[]|e] w'].
Qed.

End Overlap.

(** C3 as stated fails for two loads that overlap. The load of A is
    called and waits for the embedding of its chunk; the load of B is
    called, clears the store and waits; A is resumed and adds its chunk,
    then B adds its own. Both settle: the store holds the chunk of A under
    the title of B, retrieval returns it, and the load of B returns 2 for a
    document of one chunk. *)
Lemma processDocument_overlapping :
  let loadA := Called (lit "Alpha.") (lit "A") false in
  let loadB := Called (lit "Beta.") (lit "B") false in
  let '(settled, w) :=
    interleave [true; false; true; true; false; false] loadA loadB
      answering_world in
  settled = Returns (Settled 1, Settled 2)
  /\ length (chunkText_default (lit "Beta.")) = 1
  /\ documentTitle (ragStore w) = lit "B"
  /\ map chunk_text (chunks (ragStore w)) = [lit "Alpha."; lit "Beta."]
  /\ map (fun h => chunk_text (hit_chunk h)) (findSimilar (ragStore w) None 5)
     = [lit "Alpha."; lit "Beta."]
  /\ fst (retrieveContext (lit "query") 1 w) = Returns (lit "Alpha.").
Proof. vm_compute. repeat split. Qed.

(** Run one after the other, the same two loads leave the chunk of B
    alone. *)
Example processDocument_in_turn :
  let loadA := Called (lit "Alpha.") (lit "A") false in
  let loadB := Called (lit "Beta.") (lit "B") false in
  let '(settled, w) :=
    interleave [true; true; true; false; false; false] loadA loadB
      answering_world in
  settled = Returns (Settled 1, Settled 1)
  /\ map chunk_text (chunks (ragStore w)) = [lit "Beta."].
Proof. vm_compute. repeat split. Qed.

(** ** More about the chunker *)

(** *** The indices of the chunks *)

(** The chunks pushed so far are numbered from 0, and [chunkIndex] is the
    number of the next one. *)
Definition numbered (st : LoopState) : Prop :=
  let '(chunks, _, chunkIndex) := st in
  chunkIndex = Z.of_nat (length chunks)
  /\ map piece_index chunks = map Z.of_nat (seq 0 (length chunks)).

Lemma numbered_push (chunks : list Piece) (t : jsstring) :
  map piece_index chunks = map Z.of_nat (seq 0 (length chunks)) ->
  map piece_index (chunks ++ [mkPiece t (Z.of_nat (length chunks))])
  = map Z.of_nat (seq 0 (length (chunks ++ [mkPiece t (Z.of_nat (length chunks))]))).
Proof.
  intros H. rewrite length_app, map_app, H. cbn [length map piece_index].
  now rewrite seq_app, map_app.
Qed.

Lemma numbered_flush (chunks : list Piece) (cur next : jsstring) (idx : Z) :
  numbered (chunks, cur, idx) ->
  numbered (chunks ++ [mkPiece (trim cur) idx], next, (idx + 1)%Z).
Proof.
  intros [-> H]. split.
  - rewrite length_app. simpl. lia.
  - now apply numbered_push.
Qed.

Lemma paragraph_step_numbered (chunkSize : Z) (st : LoopState) (para : jsstring) :
  numbered st -> numbered (paragraph_step chunkSize st para).
Proof.
  destruct st as [[chunks cur] idx]. intros H. unfold paragraph_step.
  destruct (overflows chunkSize cur para); [now apply numbered_flush | exact H].
Qed.

Lemma sentence_step_numbered (chunkSize : Z) (st : LoopState) (sentence : jsstring) :
  numbered st -> numbered (sentence_step chunkSize st sentence).
Proof.
  destruct st as [[chunks cur] idx]. intros H. unfold sentence_step.
  destruct (overflows chunkSize cur sentence); [now apply numbered_flush | exact H].
Qed.

Lemma loop_numbered (step : LoopState -> jsstring -> LoopState) (parts : list jsstring) :
  (forall st part, numbered st -> numbered (step st part)) ->
  forall st, numbered st -> numbered (fold_left step parts st).
Proof.
  intros Hstep. induction parts as [|p l IH]; intros st H; [exact H|].
  simpl. apply IH. now apply Hstep.
Qed.

Lemma final_flush_numbered (st : LoopState) :
  numbered st ->
  map piece_index (final_flush st)
  = map Z.of_nat (seq 0 (length (final_flush st))).
Proof.
  destruct st as [[chunks cur] idx]. intros [-> H]. unfold final_flush.
  destruct (truthy (trim cur)); [now apply numbered_push | exact H].
Qed.

Lemma numbered_init : numbered ([], [], 0%Z).
Proof. now split. Qed.

(** X1. On both paths the chunks [chunkText] returns carry the indices
    0, 1, 2, ... in output order. *)
Theorem chunkText_indices (text : jsstring) (chunkSize overlap : Z) :
  map piece_index (chunkText text chunkSize overlap)
  = map Z.of_nat (seq 0 (length (chunkText text chunkSize overlap))).
Proof.
  unfold chunkText. destruct (_ && _).
  - unfold splitBySentences. apply final_flush_numbered, loop_numbered.
    + apply sentence_step_numbered.
    + apply numbered_init.
  - unfold splitByParagraphs. apply final_flush_numbered, loop_numbered.
    + apply paragraph_step_numbered.
    + apply numbered_init.
Qed.

(** *** The size of the chunks on the sentence path *)

Lemma trimStart_length (s : jsstring) : length (trimStart s) <= length s.
Proof.
  induction s as [|c s IH]; simpl; [lia|].
  destruct (is_ws c); simpl; lia.
Qed.

Lemma trim_length (s : jsstring) : (len (trim s) <= len s)%Z.
Proof.
  unfold len, trim, trimEnd. rewrite length_rev.
  assert (H1 := trimStart_length (rev (trimStart s))).
  assert (H2 := trimStart_length s).
  rewrite length_rev in H1.
  apply Nat2Z.inj_le. eapply Nat.le_trans; eassumption.
Qed.

(** What the sentence loop keeps true of its buffer and chunks: each is
    at most [chunkSize + 1] code units long, or is one whole sentence. *)
Definition fits (chunkSize : Z) (sentences : list jsstring) (s : jsstring) : Prop :=
  (len s <= chunkSize + 1)%Z \/ exists sentence, In sentence sentences /\ s = trim sentence.

Definition sentence_sized (chunkSize : Z) (sentences : list jsstring)
    (st : LoopState) : Prop :=
  let '(chunks, currentChunk, _) := st in
  Forall (fun p => fits chunkSize sentences (piece_text p)) chunks
  /\ (currentChunk = []
      \/ (len currentChunk <= chunkSize + 1)%Z
      \/ In currentChunk sentences).

Lemma sentence_sized_push (chunkSize : Z) (sentences : list jsstring)
    (chunks : list Piece) (cur : jsstring) (idx : Z) :
  sentence_sized chunkSize sentences (chunks, cur, idx) ->
  cur <> [] ->
  Forall (fun p => fits chunkSize sentences (piece_text p))
         (chunks ++ [mkPiece (trim cur) idx]).
Proof.
  intros [Hc Hcur] Hne. apply Forall_app. split; [exact Hc|].
  constructor; [|constructor]. cbn [piece_text].
  assert (Ht := trim_length cur).
  destruct Hcur as [-> | [Hle | Hin]].
  - contradiction.
  - left. lia.
  - right. now exists cur.
Qed.

Lemma sentence_step_sized (chunkSize : Z) (sentences : list jsstring)
    (st : LoopState) (sentence : jsstring) :
  In sentence sentences ->
  sentence_sized chunkSize sentences st ->
  sentence_sized chunkSize sentences (sentence_step chunkSize st sentence).
Proof.
  destruct st as [[chunks cur] idx]. intros Hin Hinv.
  assert (Hpush := sentence_sized_push Hinv).
  destruct Hinv as [Hc Hcur]. unfold sentence_step.
  destruct (overflows chunkSize cur sentence) eqn:E; cbn [sentence_sized].
  - split; [|now right; right]. apply Hpush. intros ->.
    unfold overflows in E. simpl in E. now rewrite andb_false_r in E.
  - split; [exact Hc|].
    destruct cur as [|c cur']; [now right; right|].
    right. left. unfold overflows in E.
    change (len (c :: cur') >? 0)%Z with (Z.pos (Pos.of_succ_nat (length cur')) >? 0)%Z in E.
    cbn [Z.gtb Z.compare] in E. rewrite andb_true_r in E.
    cbn [truthy]. unfold len in *. rewrite !length_app. cbn [length] in *.
    rewrite Z.gtb_ltb in E. apply Z.ltb_ge in E. lia.
Qed.

Lemma sentence_loop_sized (chunkSize : Z) (sentences parts : list jsstring) :
  incl parts sentences ->
  forall st,
    sentence_sized chunkSize sentences st ->
    sentence_sized chunkSize sentences (fold_left (sentence_step chunkSize) parts st).
Proof.
  induction parts as [|p l IH]; intros Hincl st H; [exact H|].
  simpl. apply IH.
  - intros x Hx. apply Hincl. now right.
  - apply sentence_step_sized; [apply Hincl; now left | exact H].
Qed.

(** X2. On the sentence path a chunk is at most [chunkSize + 1] code units
    long, the one being the space that joins two sentences, unless it is
    one whole sentence, trimmed: a sentence is never cut. *)
Theorem splitBySentences_sizes (text : jsstring) (chunkSize : Z) :
  Forall (fun p =>
            (len (piece_text p) <= chunkSize + 1)%Z
            \/ exists sentence,
                 In sentence (split_sentences false false text)
                 /\ piece_text p = trim sentence)
         (splitBySentences text chunkSize).
Proof.
  unfold splitBySentences.
  set (sentences := split_sentences false false text).
  assert (H : sentence_sized chunkSize sentences
                (fold_left (sentence_step chunkSize) sentences ([], [], 0%Z))).
  { apply sentence_loop_sized; [apply incl_refl|].
    split; [constructor | now left]. }
  destruct (fold_left _ _ _) as [[chunks cur] idx].
  unfold final_flush. destruct (truthy (trim cur)) eqn:E.
  - apply (sentence_sized_push H). now intros ->.
  - apply H.
Qed.

(** With a [chunkSize] of 5 the sentences [ab.] and [c.] fit the test
    [3 + 2 > 5] and are joined to a chunk of 6 code units. *)
Example splitBySentences_one_over :
  map piece_text (splitBySentences (lit "ab. c. de.") 5) = [lit "ab. c."; lit "de."].
Proof. reflexivity. Qed.

(** *** A document that fits in one chunk *)

(** The room the pieces of a split take in a buffer, a separator of [d]
    code units counted with each. *)
Fixpoint load (d : Z) (pieces : list jsstring) : Z :=
  match pieces with
  | [] => 0
  | p :: ps => d + len p + load d ps
  end.

Lemma load_nonneg (d : Z) (pieces : list jsstring) :
  (0 <= d)%Z -> (0 <= load d pieces)%Z.
Proof.
  intros Hd. induction pieces as [|p ps IH]; simpl; [lia|].
  unfold len. lia.
Qed.

Lemma load_push_front (d : Z) (c : code_unit) (ps : list jsstring) :
  ps <> [] -> load d (push_front c ps) = (load d ps + 1)%Z.
Proof.
  destruct ps as [|p ps]; [contradiction|]. intros _.
  simpl. unfold len. simpl length. lia.
Qed.

Lemma split_blank_lines_cons (s : jsstring) :
  forall inside, split_blank_lines inside s <> [].
Proof.
  induction s as [|c s IH]; intros inside; [discriminate|].
  cbn [split_blank_lines]. destruct (inside && (c =? LF)%N); [apply IH|].
  destruct s as [|c' s']; [discriminate|].
  destruct ((c =? LF)%N && (c' =? LF)%N); [discriminate|].
  specialize (IH false). destruct (split_blank_lines false (c' :: s'));
    [contradiction | discriminate].
Qed.

Lemma split_sentences_cons (s : jsstring) :
  forall after_terminator inside, split_sentences after_terminator inside s <> [].
Proof.
  intros a i. destruct (split_sentences_scan s a i) as (_ & p0 & rest & E & _).
  rewrite E. discriminate.
Qed.

(** The paragraphs of a text, two line feeds between them, are no longer
    than the text. *)
Lemma split_blank_lines_load (s : jsstring) :
  forall inside, (load 2 (split_blank_lines inside s) <= len s + 2)%Z.
Proof.
  remember (length s) as n eqn:Hn.
  assert (Hle : length s <= n) by lia. clear Hn.
  revert s Hle. induction n as [|n IH]; intros s Hle inside.
  - destruct s; [simpl; unfold len; simpl; lia | simpl in Hle; lia].
  - destruct s as [|c s']; [simpl; unfold len; simpl; lia|]. simpl in Hle.
    cbn [split_blank_lines].
    destruct (inside && (c =? LF)%N).
    + specialize (IH s' ltac:(lia) true). unfold len in *. simpl length. lia.
    + destruct s' as [|c' s'']; [simpl; unfold len; simpl; lia|].
      destruct ((c =? LF)%N && (c' =? LF)%N).
      * simpl in Hle. specialize (IH s'' ltac:(lia) true).
        cbn [load]. unfold len in *. simpl length. lia.
      * rewrite load_push_front by apply split_blank_lines_cons.
        specialize (IH (c' :: s'') ltac:(simpl in Hle |- *; lia) false).
        unfold len in *. simpl length in *. lia.
Qed.

(** The sentences of a text, a space between them, are no longer than the
    text. *)
Lemma split_sentences_load (s : jsstring) :
  forall after_terminator inside,
    (load 1 (split_sentences after_terminator inside s) <= len s + 1)%Z.
Proof.
  induction s as [|c s IH]; intros a i; [simpl; unfold len; simpl; lia|].
  cbn [split_sentences].
  assert (Hlen : len (c :: s) = (len s + 1)%Z) by (unfold len; simpl length; lia).
  destruct (is_ws c).
  - destruct i; [|destruct a].
    + specialize (IH false true). lia.
    + specialize (IH false true). cbn [load]. change (len []) with 0%Z. lia.
    + rewrite load_push_front by apply split_sentences_cons.
      specialize (IH false false). lia.
  - rewrite load_push_front by apply split_sentences_cons.
    specialize (IH (is_terminator c) false). lia.
Qed.

Lemma overflows_false (chunkSize : Z) (cur part : jsstring) :
  (cur = [] \/ len cur + len part <= chunkSize)%Z ->
  overflows chunkSize cur part = false.
Proof.
  unfold overflows. intros [-> | H].
  - apply andb_false_r.
  - apply andb_false_iff. left. rewrite Z.gtb_ltb. now apply Z.ltb_ge.
Qed.

(** A loop whose pieces all fit in the buffer never flushes. *)
Lemma paragraph_loop_no_flush (chunkSize : Z) (paragraphs : list jsstring) :
  forall chunks cur idx,
    (len cur + load 2 paragraphs <= chunkSize + 2)%Z ->
    exists cur',
      fold_left (paragraph_step chunkSize) paragraphs (chunks, cur, idx)
      = (chunks, cur', idx).
Proof.
  induction paragraphs as [|p l IH]; intros chunks cur idx H; [now exists cur|].
  cbn [fold_left load] in *. assert (H0 := load_nonneg l (d := 2) ltac:(lia)).
  unfold paragraph_step at 2. rewrite overflows_false.
  - apply IH. destruct cur as [|c cur]; cbn [truthy].
    + simpl app. change (len []) with 0%Z in H. lia.
    + unfold len in *. rewrite !length_app. simpl length in *. lia.
  - destruct cur; [now left | right; lia].
Qed.

Lemma sentence_loop_no_flush (chunkSize : Z) (sentences : list jsstring) :
  forall chunks cur idx,
    (len cur + load 1 sentences <= chunkSize + 1)%Z ->
    exists cur',
      fold_left (sentence_step chunkSize) sentences (chunks, cur, idx)
      = (chunks, cur', idx).
Proof.
  induction sentences as [|p l IH]; intros chunks cur idx H; [now exists cur|].
  cbn [fold_left load] in *. assert (H0 := load_nonneg l (d := 1) ltac:(lia)).
  unfold sentence_step at 2. rewrite overflows_false.
  - apply IH. destruct cur as [|c cur]; cbn [truthy].
    + simpl app. change (len []) with 0%Z in H. lia.
    + unfold len in *. rewrite !length_app. simpl length in *. lia.
  - destruct cur; [now left | right; lia].
Qed.

Lemma final_flush_single (cur : jsstring) :
  final_flush ([], cur, 0%Z) = []
  \/ final_flush ([], cur, 0%Z) = [mkPiece (trim cur) 0].
Proof. unfold final_flush. destruct (truthy (trim cur)); auto. Qed.

Lemma covers_single (x content : jsstring) : covers [] [x] content -> content = x.
Proof.
  intros H. inversion H as [|prev seed fresh rest c Hs Hc]; subst.
  inversion Hc; subst. destruct Hs as [pre Hs].
  symmetry in Hs. apply app_eq_nil in Hs as [_ ->].
  simpl. now rewrite app_nil_r.
Qed.

(** X3. A text with something other than whitespace in it that is not
    longer than [chunkSize] comes back as one chunk, with index 0, on
    either path; its text is the document modulo whitespace. *)
Theorem chunkText_small_document (text : jsstring) (chunkSize overlap : Z) :
  (len text <= chunkSize)%Z ->
  has_content text ->
  exists t,
    chunkText text chunkSize overlap = [mkPiece t 0]
    /\ squash t = squash text.
Proof.
  intros Hlen Hc.
  assert (Hcov := chunkText_covers text chunkSize overlap).
  assert (Hne := covers_nonempty Hcov (has_content_squash Hc)).
  assert (Hone : chunkText text chunkSize overlap = []
                 \/ exists t, chunkText text chunkSize overlap = [mkPiece t 0]).
  { unfold chunkText. destruct (_ && _).
    - unfold splitBySentences.
      destruct (sentence_loop_no_flush chunkSize (split_sentences false false text)
                  [] [] 0%Z) as [cur E].
      { assert (H := split_sentences_load text false false).
        change (len []) with 0%Z. lia. }
      match goal with |- context [final_flush ?x] =>
        replace x with (([] : list Piece), cur, 0%Z) by (symmetry; exact E)
      end.
      destruct (final_flush_single cur) as [-> | ->]; eauto.
    - unfold splitByParagraphs.
      destruct (paragraph_loop_no_flush chunkSize (split_blank_lines false text)
                  [] [] 0%Z) as [cur E].
      { assert (H := split_blank_lines_load text false).
        change (len []) with 0%Z. lia. }
      match goal with |- context [final_flush ?x] =>
        replace x with (([] : list Piece), cur, 0%Z) by (symmetry; exact E)
      end.
      destruct (final_flush_single cur) as [-> | ->]; eauto. }
  destruct Hone as [E | [t E]].
  - rewrite E in Hne. now contradiction Hne.
  - exists t. split; [exact E|].
    rewrite E in Hcov. cbn [texts_mod_ws map piece_text] in Hcov.
    symmetry. now apply covers_single.
Qed.

Lemma chunkText_small_document_witness :
  exists t,
    chunkText (lit "Para one." ++ [LF; LF] ++ lit "Para two." ++ [LF; LF]
               ++ lit "Para three.") 1000 200
    = [mkPiece t 0]
    /\ squash t
       = squash (lit "Para one." ++ [LF; LF] ++ lit "Para two." ++ [LF; LF]
                 ++ lit "Para three.").
Proof.
  apply chunkText_small_document.
  - vm_compute. discriminate.
  - exists 80%N. split; [now left | reflexivity].
Defined.

(** ** More about the vector store *)

(** How many elements [l.slice(0, stop)] has, for [n] elements in [l]. *)
Definition slice_count (n : nat) (stop : Z) : nat :=
  if (stop <? 0)%Z then n - Z.to_nat (- stop) else Nat.min (Z.to_nat stop) n.

Lemma js_slice_prefix (A : Type) (l : list A) (stop : Z) :
  js_slice l 0 stop = firstn (slice_count (length l) stop) l.
Proof.
  unfold js_slice, slice_count, rel_index.
  change (0 <? 0)%Z with false. cbv iota.
  replace (Z.min 0 (Z.of_nat (length l))) with 0%Z by lia.
  cbn [Z.to_nat skipn]. rewrite Z.sub_0_r.
  destruct (Z.ltb_spec stop 0).
  - f_equal. lia.
  - destruct (Nat.le_gt_cases (Z.to_nat stop) (length l)).
    + f_equal. lia.
    + rewrite !firstn_all2 by lia. reflexivity.
Qed.

Lemma slice_count_le (n : nat) (stop : Z) : slice_count n stop <= n.
Proof. unfold slice_count. destruct (stop <? 0)%Z; lia. Qed.

Lemma join_firstn_prefix (sep : jsstring) (k : nat) :
  forall pieces, exists rest, join sep pieces = join sep (firstn k pieces) ++ rest.
Proof.
  induction k as [|k IH]; intros pieces; [now exists (join sep pieces)|].
  destruct pieces as [|p ps]; [now exists []|].
  cbn [firstn]. destruct ps as [|q ps].
  - rewrite firstn_nil. exists []. now rewrite app_nil_r.
  - destruct (IH (q :: ps)) as [rest E]. rewrite join_cons.
    destruct k as [|k].
    + now exists (sep ++ join sep (q :: ps)).
    + rewrite E. cbn [firstn]. rewrite join_cons. exists rest.
      now rewrite <- !app_assoc.
Qed.

Section StoreInvariants.

Context {num : Type} {numeric : Number num}.

Lemma findSimilar_prefix (store : RAGStore num) (queryEmbedding : option (list num))
    (topK : Z) :
  exists ranking,
    Permutation (map hit_chunk ranking) (chunks store)
    /\ findSimilar store queryEmbedding topK
       = firstn (slice_count (length (chunks store)) topK) ranking.
Proof.
  unfold findSimilar. destruct (chunks store) as [|c cs] eqn:E.
  - exists []. split; [constructor | now rewrite firstn_nil].
  - assert (Hplain : exists ranking,
               Permutation (map hit_chunk ranking) (c :: cs)
               /\ map unranked (js_slice (c :: cs) 0 topK)
                  = firstn (slice_count (length (c :: cs)) topK) ranking).
    { exists (map unranked (c :: cs)). split.
      - rewrite map_map. cbn [unranked hit_chunk]. now rewrite map_id.
      - now rewrite js_slice_prefix, firstn_map. }
    destruct queryEmbedding as [[|x q]|]; try exact Hplain.
    exists (js_sort by_score_desc (map (scored (x :: q)) (c :: cs))). split.
    + rewrite js_sort_perm, map_map. cbn [scored hit_chunk]. now rewrite map_id.
    + rewrite js_slice_prefix. f_equal. f_equal.
      rewrite (Permutation_length (js_sort_perm _ _)). apply length_map.
Qed.

(** X4. Whatever the query embedding, [findSimilar] returns
    [min(topK, count)] hits for a [topK] that is not negative, and for a
    negative [topK] all but the last [-topK]: the count less [-topK], and
    none when that is negative. *)
Theorem findSimilar_count (store : RAGStore num)
    (queryEmbedding : option (list num)) (k : nat) :
  length (findSimilar store queryEmbedding (Z.of_nat k))
  = Nat.min k (length (chunks store))
  /\ length (findSimilar store queryEmbedding (- Z.of_nat (S k)))
     = length (chunks store) - S k.
Proof.
  split.
  - destruct (findSimilar_prefix store queryEmbedding (Z.of_nat k))
      as (ranking & Hp & ->).
    apply Permutation_length in Hp. rewrite length_map in Hp.
    rewrite length_firstn, Hp. unfold slice_count.
    destruct (Z.ltb_spec (Z.of_nat k) 0); lia.
  - destruct (findSimilar_prefix store queryEmbedding (- Z.of_nat (S k)))
      as (ranking & Hp & ->).
    apply Permutation_length in Hp. rewrite length_map in Hp.
    rewrite length_firstn, Hp. unfold slice_count.
    destruct (Z.ltb_spec (- Z.of_nat (S k)) 0); lia.
Qed.

(** X5. The chunks of the hits [findSimilar] returns are chunks of the
    store, each as often at most as the store holds it: with the chunks
    left out they are the chunks of the store, in some order. *)
Theorem findSimilar_selects (store : RAGStore num)
    (queryEmbedding : option (list num)) (topK : Z) :
  exists left_out,
    Permutation
      (map hit_chunk (findSimilar store queryEmbedding topK) ++ left_out)
      (chunks store).
Proof.
  destruct (findSimilar_prefix store queryEmbedding topK) as (ranking & Hp & ->).
  exists (map hit_chunk (skipn (slice_count (length (chunks store)) topK) ranking)).
  now rewrite <- map_app, firstn_skipn.
Qed.

(** The ids of the chunks are their positions. *)
Definition well_numbered (store : RAGStore num) : Prop :=
  map chunk_id (chunks store)
  = map Z.of_nat (seq 0 (length (chunks store))).

Lemma well_numbered_nth (store : RAGStore num) (i : nat) (c : Chunk num) :
  well_numbered store ->
  nth_error (chunks store) i = Some c -> chunk_id c = Z.of_nat i.
Proof.
  unfold well_numbered. intros H Hi.
  assert (Hlt : i < length (chunks store))
    by (apply nth_error_Some; congruence).
  apply (map_nth_error chunk_id) in Hi. rewrite H in Hi.
  rewrite nth_error_map, nth_error_seq in Hi.
  destruct (Nat.ltb_spec i (length (chunks store))); [|lia].
  simpl in Hi. congruence.
Qed.

(** X6. [clear] and [addChunk] keep the ids of the chunks equal to their
    positions: in a store built with them the ids are 0, 1, 2, ..., no two
    chunks share one, and the chunk at position [i] has the id [i]. *)
Theorem addChunk_numbering (store : RAGStore num) (text : jsstring)
    (embedding : option (list num)) (metadata : option Metadata) :
  well_numbered store ->
  well_numbered (clear store)
  /\ well_numbered (addChunk store text embedding metadata)
  /\ NoDup (map chunk_id (chunks (addChunk store text embedding metadata)))
  /\ (forall i c,
        nth_error (chunks (addChunk store text embedding metadata)) i = Some c ->
        chunk_id c = Z.of_nat i).
Proof.
  intros H.
  assert (Hadd : well_numbered (addChunk store text embedding metadata)).
  { unfold well_numbered, addChunk in *. cbn [chunks].
    rewrite length_app, map_app, H. cbn [length map chunk_id].
    now rewrite seq_app, map_app. }
  split; [reflexivity|]. split; [exact Hadd|]. split.
  - rewrite Hadd. apply Finite.Injective_map_NoDup; [|apply seq_NoDup].
    intros x y. apply Nat2Z.inj.
  - intros i c. now apply well_numbered_nth.
Qed.

(** X7. [getDocumentSummary(k)] is the beginning of [getAllText()], and
    the whole of it once [k] reaches the number of chunks. *)
Theorem getDocumentSummary_prefix (store : RAGStore num) (k : nat) :
  (exists rest,
      getAllText store = getDocumentSummary store (Z.of_nat k) ++ rest)
  /\ (length (chunks store) <= k ->
      getDocumentSummary store (Z.of_nat k) = getAllText store).
Proof.
  unfold getDocumentSummary, getAllText, size.
  destruct (chunks store) as [|c cs] eqn:E.
  - split; [now exists [] | reflexivity].
  - change (Z.of_nat (length (c :: cs)) =? 0)%Z with false. cbv iota.
    rewrite js_slice_firstn, <- firstn_map. split.
    + apply join_firstn_prefix.
    + intros Hk. rewrite firstn_all2; [reflexivity|]. now rewrite length_map.
Qed.

End StoreInvariants.

Lemma addChunk_numbering_witness :
  well_numbered (addChunk sample_store (lit "chunk4") (Some []) None)
  /\ NoDup (map chunk_id
              (chunks (addChunk sample_store (lit "chunk4") (Some []) None))).
Proof.
  destruct (@addChunk_numbering float sample_store (lit "chunk4")
              (Some []) None) as (_ & H1 & H2 & _).
  - reflexivity.
  - split; assumption.
Defined.

Example getDocumentSummary_sample :
  getDocumentSummary sample_store 2 = lit "chunk0" ++ [LF; LF] ++ lit "chunk1"
  /\ getDocumentSummary sample_store (-1)
     = lit "chunk0" ++ [LF; LF] ++ lit "chunk1" ++ [LF; LF] ++ lit "chunk2".
Proof. split; reflexivity. Qed.

(** ** More about cosine similarity *)

Section CosineSymmetry.

Context {num : Type} {numeric : Number num}.

Hypothesis mul_comm : forall x y : num, num_mul x y = num_mul y x.

Definition swap_norms (acc : Sums (num := num)) : Sums :=
  let '(dotProduct, normA, normB) := acc in (dotProduct, normB, normA).

Lemma cosine_fold_swap (a : list num) :
  forall b acc,
    fold_left cosine_step (combine b a) (swap_norms acc)
    = swap_norms (fold_left cosine_step (combine a b) acc).
Proof.
  induction a as [|x a IH]; intros b acc.
  - now destruct b.
  - destruct b as [|y b]; [reflexivity|].
    destruct acc as [[d na] nb]. cbn [combine fold_left].
    rewrite <- IH. cbn [cosine_step swap_norms]. now rewrite (mul_comm y x).
Qed.

Lemma cosineSimilarity_commutes (a b : option (list num)) :
  cosineSimilarity a b = cosineSimilarity b a.
Proof.
  destruct a as [a|], b as [b|]; try reflexivity.
  unfold cosineSimilarity, cosine_sums. rewrite (Nat.eqb_sym (length b)).
  destruct (negb (length a =? length b)); [reflexivity|].
  change (num_zero, num_zero, num_zero)
    with (swap_norms (num_zero, num_zero, num_zero)) at 2.
  rewrite cosine_fold_swap.
  destruct (fold_left cosine_step (combine a b) _) as [[d na] nb].
  cbn [swap_norms]. rewrite (orb_comm (num_is_zero nb)).
  now rewrite (mul_comm (num_sqrt nb)).
Qed.

End CosineSymmetry.

(** The product of two doubles does not depend on their order. *)
Lemma double_mul_comm (x y : float) : (x * y)%float = (y * x)%float.
Proof.
  apply Prim2SF_inj. rewrite !mul_spec. unfold SF64mul, SFmul.
  destruct (Prim2SF x) as [sx | sx | | sx mx ex],
           (Prim2SF y) as [sy | sy | | sy my ey];
    try reflexivity; rewrite (xorb_comm sx sy); try reflexivity.
  now rewrite Pos.mul_comm, Z.add_comm.
Qed.

(** X8. On doubles [cosineSimilarity] is symmetric: it returns the very
    same number, or NaN on both sides, when its arguments are exchanged,
    null arguments and arrays of different lengths included. *)
Theorem cosineSimilarity_symmetric (a b : option (list float)) :
  cosineSimilarity a b = cosineSimilarity b a.
Proof. apply (@cosineSimilarity_commutes float Double), double_mul_comm. Qed.

(** ** More about the embedding client *)

Section ClientTrace.

Context {num : Type} {numeric : Number num}.

Local Abbreviation World := (@World num).

(** The delays the loop awaits from iteration [attempt] on, when it goes
    round [k] more times: 2000 * (attempt + j + 1) milliseconds. *)
Definition delays_from (attempt : Z) (k : nat) : list Z :=
  map (fun j => (2000 * (attempt + Z.of_nat j + 1))%Z) (seq 0 k).

(** How the reply [r] to iteration [attempt] ends a call that returns [v]:
    a failure or a rate-limit signal with the budget used up gives null,
    an embedding is returned. *)
Definition settles (r : Reply (num := num)) (attempt retries : Z)
    (v : option (list num)) : Prop :=
  (v = None /\ (fails r \/ (rate_limited r /\ (retries <= attempt)%Z)))
  \/ exists values, v = Some values /\ embeds r values.

Lemma delays_from_S (attempt : Z) (k : nat) :
  delays_from attempt (S k)
  = (2000 * (attempt + 1))%Z :: delays_from (attempt + 1) k.
Proof.
  unfold delays_from. cbn [seq map]. f_equal; [f_equal; lia|].
  rewrite <- seq_shift, map_map. apply map_ext. intros j. f_equal. lia.
Qed.

(** Every reply is a rate-limit signal, a failure or an embedding. *)
Lemma reply_cases (r : Reply (num := num)) :
  rate_limited r \/ fails r \/ exists values, embeds r values.
Proof.
  unfold rate_limited, fails, embeds.
  destruct r as [|status body]; [right; left; now left|].
  destruct (Z.eq_dec status 429) as [-> | Hs]; [left; now exists body|].
  right. destruct (is_ok status) eqn:Hok.
  - destruct body as [|[| |values]].
    + left. right. right. exists status. split; [exact Hok | now left].
    + left. right. right. exists status. split; [exact Hok | right; now left].
    + left. right. right. exists status. split; [exact Hok | right; now right].
    + right. exists values, status. now split.
  - left. right. left. now exists status, body.
Qed.

(** An iteration either goes round, on a rate-limit signal with budget
    left, or ends the call. *)
Lemma attempt_once_cases (text : jsstring) (retries attempt : Z) (w : World) :
  (rate_limited (nth_reply w text 0) /\ (attempt < retries)%Z
   /\ attempt_once text retries attempt w
      = (Returns Continue, slept (2000 * (attempt + 1)) (fetched text w)))
  \/ exists v,
       attempt_once text retries attempt w = (Returns (Return v), fetched text w)
       /\ settles (nth_reply w text 0) attempt retries v.
Proof.
  destruct (reply_cases (nth_reply w text 0)) as [Hrl | [Hf | [values He]]].
  - destruct (Z.lt_ge_cases attempt retries) as [Hlt | Hge].
    + left. split; [exact Hrl|]. split; [exact Hlt | now apply attempt_retry].
    + right. exists None. split; [now apply attempt_exhausted|].
      left. split; [reflexivity|]. right. now split.
  - right. exists None. split; [now apply attempt_fails|].
    left. split; [reflexivity | now left].
  - right. exists (Some values). split; [now apply attempt_embeds|].
    right. now exists values.
Qed.

(** The whole run of the loop, for any provider: some number [k] of
    rate-limit signals within the budget, each followed by its delay, and
    then the reply that ends the call. *)
Lemma retry_loop_trace (text : jsstring) (retries : Z) (fuel : nat) :
  forall attempt (w : World),
    (attempt <= retries)%Z ->
    (retries + 1 - attempt <= Z.of_nat fuel)%Z ->
    exists v w' k,
      retry_loop fuel text retries attempt w = (Returns v, w')
      /\ (attempt + Z.of_nat k <= retries)%Z
      /\ (forall j, j < k -> rate_limited (nth_reply w text j))
      /\ settles (nth_reply w text k) (attempt + Z.of_nat k) retries v
      /\ fetches w' = fetches w + k + 1
      /\ sleeps w' = sleeps w ++ delays_from attempt k
      /\ same_store w w'.
Proof.
  induction fuel as [|fuel IH]; intros attempt w Ha Hf; [lia|].
  rewrite retry_loop_S. apply Z.leb_le in Ha as Hb. rewrite Hb.
  destruct (attempt_once_cases text retries attempt w)
    as [(Hrl & Hlt & E) | (v & E & Hv)]; rewrite E.
  - destruct (IH (attempt + 1)%Z (slept (2000 * (attempt + 1)) (fetched text w)))
      as (v & w' & k & E' & Hk & Hj & Hv & Hfe & Hsl & S1 & S2 & S3); try lia.
    exists v, w', (S k). split; [exact E'|].
    split; [lia|]. split; [|split; [|split; [|split]]].
    + intros [|j] Hlt'; [exact Hrl|].
      rewrite <- (nth_reply_next text (2000 * (attempt + 1))). apply Hj. lia.
    + rewrite nth_reply_next in Hv.
      replace (attempt + Z.of_nat (S k))%Z with (attempt + 1 + Z.of_nat k)%Z by lia.
      exact Hv.
    + rewrite Hfe. simpl. lia.
    + rewrite Hsl, delays_from_S. simpl. now rewrite <- app_assoc.
    + now repeat split.
  - exists v, (fetched text w), 0. split; [reflexivity|].
    split; [lia|]. split; [intros j Hj; lia|].
    split; [now rewrite Z.add_0_r|]. split; [simpl; lia|].
    split; [simpl; now rewrite app_nil_r | now repeat split].
Qed.

(** X9. With a budget of [retries >= 0], [generateEmbeddingWithRetry]
    goes through some number [k <= retries] of rate-limit signals, waits
    2000 * (j + 1) milliseconds after the [j]-th of them (from 0), and ends
    on the reply to request [k]: with that reply's embedding, or with null
    when it is a failure or a rate-limit signal that finds the budget used
    up. It has then sent [k + 1] requests. This holds for every provider. *)
Theorem generateEmbeddingWithRetry_trace (text : jsstring) (retries : Z) (w : World) :
  (0 <= retries)%Z ->
  exists v w' k,
    generateEmbeddingWithRetry text retries w = (Returns v, w')
    /\ (Z.of_nat k <= retries)%Z
    /\ (forall j, j < k -> rate_limited (nth_reply w text j))
    /\ settles (nth_reply w text k) (Z.of_nat k) retries v
    /\ fetches w' = fetches w + k + 1
    /\ sleeps w' = sleeps w ++ map (fun j => (2000 * (Z.of_nat j + 1))%Z) (seq 0 k).
Proof.
  intros Hr.
  destruct (@retry_loop_trace text retries (Z.to_nat (retries + 1)) 0%Z w)
    as (v & w' & k & E & Hk & Hj & Hv & Hfe & Hsl & _); try lia.
  exists v, w', k. repeat split; assumption.
Qed.

(** X10. With a negative budget [generateEmbeddingWithRetry] returns null
    and sends no request. *)
Theorem generateEmbeddingWithRetry_no_budget (text : jsstring) (retries : Z) (w : World) :
  (retries < 0)%Z ->
  generateEmbeddingWithRetry text retries w = (Returns None, w).
Proof.
  intros Hr. unfold generateEmbeddingWithRetry.
  destruct (Z.to_nat (retries + 1)) eqn:E; [reflexivity | lia].
Qed.

End ClientTrace.

(** ** More about retrieval *)

Section RetrievalTrace.

Context {num : Type} {numeric : Number num}.

Local Abbreviation World := (@World num).

(** An embedding is neither a rate-limit signal nor a failure. *)
Lemma embeds_only (r : Reply (num := num)) (values : list num) :
  embeds r values -> ~ rate_limited r /\ ~ fails r.
Proof.
  intros (status & Hok & ->). split.
  - intros [body H]. injection H as -> _. discriminate.
  - intros [H | [(s & b & H & _ & Hno) | (s & _ & [H | [H | H]])]];
      try discriminate.
    injection H as -> _. congruence.
Qed.

Lemma settles_embedding (r : Reply (num := num)) (values : list num)
    (attempt retries : Z) (v : option (list num)) :
  embeds r values -> settles r attempt retries v -> v = Some values.
Proof.
  intros He [[_ [Hf | [Hrl _]]] | (values' & -> & He')].
  - now apply (embeds_only He) in Hf.
  - now apply (embeds_only He) in Hrl.
  - destruct He as (s & _ & ->), He' as (s' & _ & H). now injection H as _ <-.
Qed.

Lemma settles_null (r : Reply (num := num)) (attempt retries : Z)
    (v : option (list num)) :
  rate_limited r \/ fails r -> settles r attempt retries v -> v = None.
Proof.
  intros Hr [[-> _] | (values & _ & He)]; [reflexivity|].
  destruct (embeds_only He) as [H1 H2]. now destruct Hr.
Qed.

(** With no retry the loop sends one request and awaits no timer. *)
Lemma single_attempt (query : jsstring) (w : World) :
  exists v,
    generateEmbeddingWithRetry query 0 w = (Returns v, fetched query w)
    /\ settles (nth_reply w query 0) 0 0 v.
Proof.
  unfold generateEmbeddingWithRetry. change (Z.to_nat (0 + 1)) with 1.
  rewrite retry_loop_S. change (0 <=? 0)%Z with true. cbv iota.
  destruct (attempt_once_cases query 0 0 w) as [(_ & Hlt & _) | (v & E & Hv)]; [lia|].
  rewrite E. now exists v.
Qed.

(** The world a retrieval from a store that holds chunks leaves: one more
    request, and the clock at the reply or at the deadline of 800
    milliseconds, whichever comes first. *)
Definition raced (query : jsstring) (w : World) : World :=
  mkWorld (ragStore w) (provider w) (S (fetches w))
    (clock w + Z.min (latency (provider w (fetches w) query)) 800)
    (sleeps w) (progress w).

(** [similar.map(c => c.text).join(separator)] *)
Definition context_of (similar : list (Hit num)) : jsstring :=
  join separator (map (fun h => chunk_text (hit_chunk h)) similar).

Lemma retrieveContext_runs (query : jsstring) (topK : Z) (w : World) :
  chunks (ragStore w) <> [] ->
  exists v,
    settles (nth_reply w query 0) 0 0 v
    /\ retrieveContext query topK w
       = (Returns
            (context_of
               (findSimilar (ragStore w)
                  (if (latency (provider w (fetches w) query) <? 800)%Z
                   then v else None) topK)),
          raced query w).
Proof.
  intros Hne. destruct (single_attempt query w) as (v & E & Hv).
  exists v. split; [exact Hv|].
  unfold retrieveContext. unfold bind at 1, get_store at 1.
  unfold size. destruct (chunks (ragStore w)) as [|c cs] eqn:Ec; [contradiction|].
  change (Z.of_nat (length (c :: cs)) =? 0)%Z with false. cbv iota.
  unfold bind at 1, try_catch, race_timeout. rewrite E.
  unfold fetched at 1. cbn [clock].
  replace (clock w + latency (provider w (fetches w) query) - clock w)%Z
    with (latency (provider w (fetches w) query)) by lia.
  unfold context_of, raced, fetched, bind, get_store, ret.
  destruct (Z.ltb_spec (latency (provider w (fetches w) query)) 800) as [Hl | Hl];
    cbn [ragStore provider fetches sleeps progress].
  - now rewrite Z.min_l by lia.
  - now rewrite Z.min_r by lia.
Qed.

(** X11. On a store that holds chunks [retrieveContext] never throws,
    sends exactly one request whatever the reply, awaits no backoff, and
    takes the latency of the reply or 800 milliseconds, whichever is less;
    it leaves the store, the provider and the progress reports alone. *)
Theorem retrieveContext_effects (query : jsstring) (topK : Z) (w : World) :
  chunks (ragStore w) <> [] ->
  exists context w',
    retrieveContext query topK w = (Returns context, w')
    /\ fetches w' = S (fetches w)
    /\ sleeps w' = sleeps w
    /\ clock w' = (clock w + Z.min (latency (provider w (fetches w) query)) 800)%Z
    /\ same_store w w'.
Proof.
  intros Hne. destruct (retrieveContext_runs query topK w Hne) as (v & _ & E).
  eexists _, _. split; [exact E|]. now repeat split.
Qed.

(** X12. When the reply to the query carries an embedding and comes in
    fewer than 800 milliseconds, [retrieveContext] returns the texts of
    the chunks [findSimilar] selects for that embedding, joined by the
    separator. *)
Theorem retrieveContext_ranked (query : jsstring) (topK : Z) (w : World)
    (values : list num) :
  chunks (ragStore w) <> [] ->
  embeds (nth_reply w query 0) values ->
  (latency (provider w (fetches w) query) < 800)%Z ->
  fst (retrieveContext query topK w)
  = Returns
      (join separator
         (map (fun h => chunk_text (hit_chunk h))
            (findSimilar (ragStore w) (Some values) topK))).
Proof.
  intros Hne He Hl. destruct (retrieveContext_runs query topK w Hne) as (v & Hv & E).
  rewrite E. cbn [fst]. apply Z.ltb_lt in Hl. rewrite Hl.
  now rewrite (settles_embedding He Hv).
Qed.

(** X13. When the reply to the query takes 800 milliseconds or more, is
    a rate-limit signal or a failure, or carries an empty embedding,
    [retrieveContext] returns the texts of the first [topK] chunks of the
    store in insertion order, joined by the separator. *)
Theorem retrieveContext_fallback (query : jsstring) (topK : Z) (w : World) :
  chunks (ragStore w) <> [] ->
  (800 <= latency (provider w (fetches w) query))%Z
  \/ rate_limited (nth_reply w query 0)
  \/ fails (nth_reply w query 0)
  \/ embeds (nth_reply w query 0) [] ->
  fst (retrieveContext query topK w)
  = Returns
      (join separator (map chunk_text (js_slice (chunks (ragStore w)) 0 topK))).
Proof.
  intros Hne Hcase. destruct (retrieveContext_runs query topK w Hne) as (v & Hv & E).
  rewrite E. cbn [fst]. unfold context_of.
  destruct (findSimilar_fallback (ragStore w) topK) as [F1 F2].
  assert (Hq : forall q, q = None \/ q = Some [] ->
             map (fun h => chunk_text (hit_chunk h)) (findSimilar (ragStore w) q topK)
             = map chunk_text (js_slice (chunks (ragStore w)) 0 topK)).
  { intros q [-> | ->]; [rewrite F1 | rewrite F2]; now rewrite map_map. }
  rewrite Hq; [reflexivity|].
  destruct (latency (provider w (fetches w) query) <? 800)%Z eqn:Hl; [|now left].
  destruct Hcase as [H | [H | [H | H]]].
  - apply Z.ltb_lt in Hl. lia.
  - left. apply (settles_null (or_introl H) Hv).
  - left. apply (settles_null (or_intror H) Hv).
  - right. apply (settles_embedding H Hv).
Qed.

End RetrievalTrace.

(** ** More about the document session *)

Section SessionTrace.

Context {num : Type} {numeric : Number num}.

Local Abbreviation World := (@World num).

(** The progress reports of a load from chunk [i] on: the number of the
    chunk, from 1, and the total. *)
Definition reports_from (i total : Z) (n : nat) : list (Z * Z) :=
  map (fun j => ((i + Z.of_nat j + 1)%Z, total)) (seq 0 n).

Lemma reports_from_S (i total : Z) (n : nat) :
  reports_from i total (S n) = ((i + 1)%Z, total) :: reports_from (i + 1) total n.
Proof.
  unfold reports_from. cbn [seq map]. f_equal; [f_equal; lia|].
  rewrite <- seq_shift, map_map. apply map_ext. intros j. f_equal. lia.
Qed.

(** The timers a load awaits are the pause of 50 milliseconds after each
    chunk and the backoffs of the client. *)
Definition is_pause_or_backoff (ms : Z) : Prop :=
  ms = 50%Z \/ ms = 2000%Z \/ ms = 4000%Z.

(** A call with the default budget: at most 3 requests, and backoffs of 2
    and 4 seconds only. *)
Lemma default_budget_trace (text : jsstring) (w : World) :
  exists v w' k,
    generateEmbeddingWithRetry text 2 w = (Returns v, w')
    /\ k <= 2
    /\ fetches w' = fetches w + k + 1
    /\ sleeps w' = sleeps w ++ delays_from 0 k
    /\ same_store w w'.
Proof.
  destruct (@retry_loop_trace _ text 2 (Z.to_nat (2 + 1)) 0%Z w)
    as (v & w' & k & E & Hk & _ & _ & Hfe & Hsl & Hs); try lia.
  exists v, w', k. split; [exact E|]. split; [lia|].
  split; [exact Hfe|]. split; [exact Hsl | exact Hs].
Qed.

Lemma delays_from_backoffs (k : nat) :
  k <= 2 ->
  count_occ Z.eq_dec (delays_from 0 k) 50%Z = 0
  /\ Forall is_pause_or_backoff (delays_from 0 k).
Proof.
  intros Hk. destruct k as [|[|[|k]]]; [| | |lia]; split; try reflexivity;
    repeat constructor; unfold is_pause_or_backoff; simpl; lia.
Qed.

Lemma process_chunks_effects (title : jsstring) (onProgress : bool) (total : Z)
    (todo : list Piece) :
  forall i (w : World),
  exists w' delays,
    process_chunks title onProgress total i todo w = (Returns tt, w')
    /\ progress w'
       = progress w ++ (if onProgress then reports_from i total (length todo) else [])
    /\ fetches w + length todo <= fetches w' <= fetches w + 3 * length todo
    /\ sleeps w' = sleeps w ++ delays
    /\ count_occ Z.eq_dec delays 50%Z = length todo
    /\ Forall is_pause_or_backoff delays
    /\ provider w' = provider w.
Proof.
  induction todo as [|p todo IH]; intros i w.
  - exists w, []. cbn [process_chunks length]. rewrite app_nil_r.
    repeat split; try lia; try constructor.
    destruct onProgress; now rewrite app_nil_r.
  - cbn [process_chunks]. unfold bind at 1.
    set (w1 := snd ((if onProgress then report (i + 1) total else ret tt) w)).
    assert (E1 : (if onProgress then report (i + 1) total else ret tt) w
                 = (Returns tt, w1)) by (subst w1; now destruct onProgress).
    assert (P1 : progress w1
                 = progress w ++ (if onProgress then [((i + 1)%Z, total)] else []))
      by (subst w1; destruct onProgress; simpl; now rewrite ?app_nil_r).
    assert (F1 : fetches w1 = fetches w) by (subst w1; now destruct onProgress).
    assert (S1 : sleeps w1 = sleeps w) by (subst w1; now destruct onProgress).
    assert (V1 : provider w1 = provider w) by (subst w1; now destruct onProgress).
    rewrite E1. unfold bind at 1.
    destruct (default_budget_trace (piece_text p) w1)
      as (v & w2 & k & E2 & Hk & F2 & S2 & _ & V2 & P2).
    rewrite E2. unfold bind at 1, update_store at 1. unfold bind at 1, sleep at 1.
    match goal with |- context [process_chunks _ _ _ _ _ ?w3] =>
      destruct (IH (i + 1)%Z w3) as (w' & delays & E & Hp & Hf & Hs & Hc & Hd & Hv)
    end.
    cbn [progress fetches sleeps provider] in Hp, Hf, Hs, Hv.
    destruct (delays_from_backoffs Hk) as [Hc0 Hd0].
    exists w', (delays_from 0 k ++ [50%Z] ++ delays). split; [exact E|].
    split; [|split; [|split; [|split; [|split]]]].
    + rewrite Hp, P2, P1, <- app_assoc. f_equal.
      destruct onProgress; [|reflexivity].
      cbn [length]. now rewrite reports_from_S.
    + cbn [length]. lia.
    + rewrite Hs, S2, S1. now rewrite <- !app_assoc.
    + rewrite !count_occ_app, Hc0, Hc. reflexivity.
    + apply Forall_app. split; [exact Hd0|].
      apply Forall_app. split; [|exact Hd].
      constructor; [now left | constructor].
    + congruence.
Qed.

(** [processDocument] as a run of its loop on the cleared store. *)
Lemma processDocument_unfold (text title : jsstring) (onProgress : bool) (w : World) :
  processDocument text title onProgress w
  = match
      process_chunks title onProgress
        (Z.of_nat (length (chunkText_default text))) 0 (chunkText_default text)
        (mkWorld (mkStore [] title) (provider w) (fetches w) (clock w) (sleeps w)
           (progress w))
    with
    | (Returns _, w') => (Returns (size (ragStore w')), w')
    | (Throws e, w') => (Throws e, w')
    end.
Proof.
  unfold processDocument, bind, update_store, get_store, ret. cbn.
  now destruct (process_chunks _ _ _ _ _ _) as [[[]|e] w'].
Qed.

(** X14. A load of a document of [n] chunks reports the progress
    [(1, n), ..., (n, n)] when a callback is passed and nothing otherwise;
    it sends between [n] and [3 * n] requests; it awaits the pause of 50
    milliseconds [n] times, once per chunk, and besides that only backoffs
    of 2000 and 4000 milliseconds. This holds for every provider. *)
Theorem processDocument_effects (text title : jsstring) (onProgress : bool) (w : World) :
  let n := length (chunkText_default text) in
  exists w' delays,
    processDocument text title onProgress w = (Returns (Z.of_nat n), w')
    /\ progress w'
       = progress w
         ++ (if onProgress
             then map (fun j => ((Z.of_nat j + 1)%Z, Z.of_nat n)) (seq 0 n)
             else [])
    /\ fetches w + n <= fetches w' <= fetches w + 3 * n
    /\ sleeps w' = sleeps w ++ delays
    /\ count_occ Z.eq_dec delays 50%Z = n
    /\ Forall is_pause_or_backoff delays.
Proof.
  cbv zeta. rewrite processDocument_unfold.
  match goal with |- context [process_chunks ?t ?c ?n ?i ?l ?w1] =>
    destruct (process_chunks_effects t c n l i w1)
      as (w' & delays & E & Hp & Hf & Hs & Hc & Hd & _);
    destruct (process_chunks_appends t c n l i w1)
      as (w'' & added & E' & Hch & _ & Hst & _)
  end.
  rewrite E in E'. injection E' as <-. rewrite E.
  cbn [ragStore chunks progress fetches sleeps app] in *.
  exists w', delays. unfold size. rewrite Hch.
  apply Forall2_length in Hst. rewrite <- Hst.
  repeat split; try assumption; lia.
Qed.

End SessionTrace.

(** ** From a load to the examination *)

(** [s.substring(start, stop)]: both ends are clamped to the string and
    exchanged when they come in the wrong order. *)
Definition substring (s : jsstring) (start stop : Z) : jsstring :=
  let finalStart := Z.min (Z.max start 0) (len s) in
  let finalEnd := Z.min (Z.max stop 0) (len s) in
  let from := Z.min finalStart finalEnd in
  let to := Z.max finalStart finalEnd in
  firstn (Z.to_nat (to - from)) (skipn (Z.to_nat from) s).

(** The guard of [processFile] (WelcomeCard.jsx, line 121):
    [!content || content.trim().length < 100]. *)
Definition insufficient_text (content : jsstring) : bool :=
  negb (truthy content) || (len (trim content) <? 100)%Z.

(** A message of the conversation: [{ type, text }]. *)
Record Message := mkMessage { msg_type : jsstring; msg_text : jsstring }.

(** [a === b] on strings. *)
Definition string_eqb (a b : jsstring) : bool :=
  if list_eq_dec N.eq_dec a b then true else false.

(** [conversationHistory.filter(m => m.type === 'profesor').pop()?.text || ''] *)
Definition last_question (conversationHistory : list Message) : jsstring :=
  match rev (filter (fun m => string_eqb (msg_type m) (lit "profesor"))
               conversationHistory) with
  | m :: _ => msg_text m
  | [] => []
  end.

Section Examination.

Context {num : Type} {numeric : Number num}.

Local Abbreviation World := (@World num).

(** The context [startExamination] builds its prompt from
    (gemini.js, lines 355-360). *)
Definition startExamination_context (store : RAGStore num) (paperContent : jsstring)
  : jsstring :=
  let context := getDocumentSummary store 5 in
  if negb (truthy context) || (len context <? 100)%Z
  then substring paperContent 0 8000
  else context.

(** The context [evaluateAndRespond] builds its prompt from
    (gemini.js, lines 391-403). *)
Definition evaluateAndRespond_context (paperContent : jsstring)
    (conversationHistory : list Message) (studentAnswer : jsstring)
  : Async (num := num) jsstring :=
  let lastQuestion := last_question conversationHistory in
  bind
    (try_catch (retrieveContext (lastQuestion ++ [SPACE] ++ studentAnswer) 4)
               (fun _ => ret []))
    (fun relevantContext =>
       ret (if negb (truthy relevantContext) || (len relevantContext <? 50)%Z
            then substring paperContent 0 4000
            else relevantContext)).

Lemma substring_length (s : jsstring) (n : Z) :
  (0 <= n)%Z -> len (substring s 0 n) = Z.min n (len s).
Proof.
  intros Hn. unfold substring, len. cbv zeta.
  rewrite length_firstn, length_skipn. lia.
Qed.

Lemma stored_texts (title : jsstring) (pieces : list Piece) (stored : list (Chunk num)) :
  Forall2 (stored_as title) pieces stored ->
  map chunk_text stored = map piece_text pieces.
Proof.
  induction 1 as [|p c pieces stored [Ht _] _ IH]; [reflexivity|].
  simpl. now rewrite Ht, IH.
Qed.

Lemma squash_join (ps : list jsstring) :
  squash (join [LF; LF] ps) = concat (map squash ps).
Proof.
  induction ps as [|p [|q ps] IH]; [reflexivity | simpl; now rewrite app_nil_r |].
  rewrite join_cons, !squash_app, IH. reflexivity.
Qed.

Lemma trim_content (s : jsstring) : trim s <> [] -> has_content s.
Proof.
  intros Hne. destruct (trim_is_trimmed s) as [Hc _].
  destruct (trim s) as [|c t] eqn:E; [contradiction|].
  simpl in Hc. apply negb_true_iff in Hc.
  assert (Hin : In c (squash s)).
  { rewrite <- squash_trim, E. apply filter_In. split; [now left | now rewrite Hc]. }
  apply filter_In in Hin as [Hin Hws]. apply negb_true_iff in Hws.
  now exists c.
Qed.

(** What a load of a document with content leaves. *)
Lemma processDocument_content (text title : jsstring) (onProgress : bool) (w : World) :
  has_content text ->
  exists n w',
    processDocument text title onProgress w = (Returns n, w')
    /\ (1 <= n)%Z
    /\ n = size (ragStore w')
    /\ documentTitle (ragStore w') = title
    /\ map chunk_text (chunks (ragStore w')) = map piece_text (chunkText_default text).
Proof.
  intros Hc.
  destruct (processDocument_loads text title onProgress w)
    as (n & w' & E & Ht & Hf & _ & Hn & Hs).
  exists n, w'. split; [exact E|].
  assert (Hne : chunkText_default text <> []).
  { intros E0.
    apply (covers_nonempty (chunkText_covers text 1500 200) (has_content_squash Hc)).
    unfold chunkText_default in E0. now rewrite E0. }
  split; [|split; [exact Hs | split; [exact Ht | now apply stored_texts with title]]].
  rewrite Hn. destruct (chunkText_default text); [contradiction | simpl; lia].
Qed.

(** X15. After a load of a document that holds something other than
    whitespace, whatever the provider answers, a document is loaded, its
    title is the one passed, at least one chunk is stored, and the stored
    texts in order spell the document modulo whitespace once the overlap
    is taken out of each. *)
Theorem processDocument_then_loaded (text title : jsstring) (onProgress : bool)
    (w : World) :
  has_content text ->
  exists n w',
    processDocument text title onProgress w = (Returns n, w')
    /\ (1 <= n)%Z
    /\ isDocumentLoaded (ragStore w') = true
    /\ getDocumentTitle (ragStore w') = title
    /\ covers [] (map squash (map chunk_text (chunks (ragStore w')))) (squash text).
Proof.
  intros Hc.
  destruct (processDocument_content title onProgress w Hc)
    as (n & w' & E & Hn & Hs & Ht & Hx).
  exists n, w'. split; [exact E|]. split; [exact Hn|].
  split; [|split; [exact Ht|]].
  - unfold isDocumentLoaded. rewrite <- Hs. lia.
  - rewrite Hx, map_map. apply (chunkText_covers text 1500 200).
Qed.

Lemma chunkText_sentence_path (text : jsstring) (chunkSize overlap : Z) :
  (1000 < len text)%Z -> has_blank_line text = false ->
  chunkText text chunkSize overlap = splitBySentences text chunkSize.
Proof.
  intros Hlen Hb. apply (splitByParagraphs_one_paragraph text chunkSize) in Hb.
  unfold chunkText.
  destruct (Z.ltb_spec (Z.of_nat (length (splitByParagraphs text chunkSize))) 3);
    [|lia].
  destruct (Z.gtb_spec (len text) 1000); [reflexivity | lia].
Qed.

(** X16. After a load of a document of more than 1000 code units without
    a blank line, [getAllText] gives the document back modulo whitespace:
    nothing is lost and nothing is repeated. *)
Theorem getAllText_round_trip (text title : jsstring) (onProgress : bool) (w : World) :
  (1000 < len text)%Z ->
  has_blank_line text = false ->
  exists n w',
    processDocument text title onProgress w = (Returns n, w')
    /\ squash (getAllText (ragStore w')) = squash text.
Proof.
  intros Hlen Hb.
  destruct (processDocument_loads text title onProgress w)
    as (n & w' & E & _ & Hf & _).
  exists n, w'. split; [exact E|].
  unfold getAllText. rewrite squash_join, (stored_texts Hf), map_map.
  unfold chunkText_default. rewrite (@chunkText_sentence_path text 1500 200 Hlen Hb).
  apply splitBySentences_content.
Qed.

(** X17. An upload that passes the guard of [processFile] always loads:
    the document has content, [processDocument] stores at least one chunk,
    and the context [startExamination] then builds has at least 100 code
    units. *)
Theorem upload_then_examination (content title : jsstring) (w : World) :
  insufficient_text content = false ->
  exists n w',
    processDocument content title true w = (Returns n, w')
    /\ (1 <= n)%Z
    /\ isDocumentLoaded (ragStore w') = true
    /\ (100 <= len (startExamination_context (ragStore w') content))%Z.
Proof.
  unfold insufficient_text. intros Hg. apply orb_false_iff in Hg as [_ Hg].
  apply Z.ltb_ge in Hg.
  assert (Hc : has_content content).
  { apply trim_content. intros E. rewrite E in Hg. unfold len in Hg. simpl in Hg. lia. }
  destruct (processDocument_content title true w Hc)
    as (n & w' & E & Hn & Hs & _).
  exists n, w'. split; [exact E|]. split; [exact Hn|]. split.
  - unfold isDocumentLoaded. rewrite <- Hs. lia.
  - unfold startExamination_context. cbv zeta.
    destruct (negb (truthy _) || _) eqn:G.
    + rewrite substring_length by lia. assert (H := trim_length content). lia.
    + apply orb_false_iff in G as [_ G]. now apply Z.ltb_ge in G.
Qed.

(** X18. The context of [evaluateAndRespond] is always built: no failure
    of the retrieval reaches the caller. It has at least 50 code units, or
    is the whole paper when the paper is shorter; at most one request is
    sent and the store is left alone. With an empty store it is the first
    4000 code units of the paper and no request is sent. *)
Theorem evaluateAndRespond_context_built (paperContent : jsstring)
    (conversationHistory : list Message) (studentAnswer : jsstring) (w : World) :
  exists context w',
    evaluateAndRespond_context paperContent conversationHistory studentAnswer w
    = (Returns context, w')
    /\ (Z.min 50 (len paperContent) <= len context)%Z
    /\ fetches w' <= S (fetches w)
    /\ ragStore w' = ragStore w
    /\ (chunks (ragStore w) = [] ->
        context = substring paperContent 0 4000 /\ w' = w).
Proof.
  assert (Hlen : forall c : jsstring,
             (Z.min 50 (len paperContent)
              <= len (if negb (truthy c) || (len c <? 50)%Z
                      then substring paperContent 0 4000 else c))%Z).
  { intros c. destruct (negb (truthy c) || _) eqn:G.
    - rewrite substring_length by lia. lia.
    - apply orb_false_iff in G as [_ G]. apply Z.ltb_ge in G. lia. }
  unfold evaluateAndRespond_context. cbv zeta.
  set (query := last_question conversationHistory ++ [SPACE] ++ studentAnswer).
  destruct (chunks (ragStore w)) as [|c cs] eqn:Ec.
  - assert (E : retrieveContext query 4 w = (Returns [], w)).
    { unfold retrieveContext, bind, get_store, size. now rewrite Ec. }
    unfold bind, try_catch. rewrite E. unfold ret.
    eexists _, w. split; [reflexivity|].
    split; [apply Hlen|]. split; [lia|]. split; [reflexivity|].
    intros _. now split.
  - destruct (@retrieveContext_runs _ _ query 4 w) as (v & _ & E);
      [rewrite Ec; discriminate|].
    unfold bind, try_catch. rewrite E. unfold ret.
    eexists _, _. split; [reflexivity|].
    split; [apply Hlen|]. split; [simpl; lia|]. split; [reflexivity|].
    intros H. discriminate.
Qed.

End Examination.

(** ** The added properties at work *)

Lemma generateEmbeddingWithRetry_trace_witness :
  exists v w' k,
    generateEmbeddingWithRetry (lit "text") 3 rate_limiting_world = (Returns v, w')
    /\ (Z.of_nat k <= 3)%Z
    /\ (forall j, j < k -> rate_limited (nth_reply rate_limiting_world (lit "text") j))
    /\ settles (nth_reply rate_limiting_world (lit "text") k) (Z.of_nat k) 3 v
    /\ fetches w' = fetches rate_limiting_world + k + 1
    /\ sleeps w'
       = sleeps rate_limiting_world
         ++ map (fun j => (2000 * (Z.of_nat j + 1))%Z) (seq 0 k).
Proof. apply generateEmbeddingWithRetry_trace. lia. Defined.

(** The delays grow by 2 seconds each time: they do not double. *)
Example generateEmbeddingWithRetry_three_retries :
  let w' := snd (generateEmbeddingWithRetry (lit "text") 3 rate_limiting_world) in
  fetches w' = 4 /\ sleeps w' = [2000; 4000; 6000]%Z.
Proof. vm_compute. split; reflexivity. Qed.

Lemma generateEmbeddingWithRetry_no_budget_witness :
  generateEmbeddingWithRetry (lit "text") (-1) rate_limiting_world
  = (Returns None, rate_limiting_world).
Proof. apply generateEmbeddingWithRetry_no_budget. lia. Defined.

Lemma retrieveContext_effects_witness :
  exists context w',
    retrieveContext (lit "query") 2 answering_world = (Returns context, w')
    /\ fetches w' = S (fetches answering_world)
    /\ sleeps w' = sleeps answering_world
    /\ clock w'
       = (clock answering_world
          + Z.min (latency (provider answering_world (fetches answering_world)
                              (lit "query"))) 800)%Z
    /\ same_store answering_world w'.
Proof. apply retrieveContext_effects. discriminate. Defined.

Lemma retrieveContext_ranked_witness :
  fst (retrieveContext (lit "query") 2 answering_world)
  = Returns
      (join separator
         (map (fun h => chunk_text (hit_chunk h))
            (findSimilar (ragStore answering_world)
               (Some [1%float; 0%float]) 2))).
Proof.
  apply retrieveContext_ranked.
  - discriminate.
  - exists 200%Z. split; reflexivity.
  - reflexivity.
Defined.

Lemma retrieveContext_fallback_witness :
  fst (retrieveContext (lit "query") 2 rate_limiting_world)
  = Returns
      (join separator
         (map chunk_text (js_slice (chunks (ragStore rate_limiting_world)) 0 2))).
Proof.
  apply retrieveContext_fallback.
  - discriminate.
  - right. left. now exists Unparsable.
Defined.

Example processDocument_reports :
  let w' := snd (processDocument plain_document (lit "title") true
                   rate_limiting_world) in
  progress w' = [(1, 2); (2, 2)]%Z
  /\ fetches w' = 6
  /\ sleeps w' = [2000; 4000; 50; 2000; 4000; 50]%Z.
Proof. vm_compute. repeat split. Qed.

Lemma processDocument_then_loaded_witness :
  exists n w',
    processDocument (lit "One. Two.") (lit "title") false answering_world
    = (Returns n, w')
    /\ (1 <= n)%Z
    /\ isDocumentLoaded (ragStore w') = true
    /\ getDocumentTitle (ragStore w') = lit "title"
    /\ covers [] (map squash (map chunk_text (chunks (ragStore w'))))
         (squash (lit "One. Two.")).
Proof.
  apply processDocument_then_loaded.
  exists 79%N. split; [now left | reflexivity].
Defined.

Lemma getAllText_round_trip_witness :
  exists n w',
    processDocument plain_document (lit "title") false answering_world
    = (Returns n, w')
    /\ squash (getAllText (ragStore w')) = squash plain_document.
Proof.
  apply getAllText_round_trip; vm_compute; reflexivity.
Defined.

Lemma upload_then_examination_witness :
  exists n w',
    processDocument plain_document (lit "title") true answering_world
    = (Returns n, w')
    /\ (1 <= n)%Z
    /\ isDocumentLoaded (ragStore w') = true
    /\ (100 <= len (startExamination_context (ragStore w') plain_document))%Z.
Proof.
  apply upload_then_examination. vm_compute. reflexivity.
Defined.

(** A world whose store was never loaded. *)
Definition unloaded_world : World (num := float) :=
  mkWorld empty_store (provider answering_world) 0 0 [] [].

(** A paper shorter than the threshold, and a store that was never
    loaded: the context is the paper itself. *)
Example evaluateAndRespond_context_short :
  fst (evaluateAndRespond_context (lit "A short paper.")
         [mkMessage (lit "profesor") (lit "Why?")] (lit "Because.")
         unloaded_world)
  = Returns (lit "A short paper.").
Proof. vm_compute. reflexivity. Qed.

Lemma getDocumentSummary_prefix_witness :
  getDocumentSummary sample_store (Z.of_nat 5) = getAllText sample_store.
Proof.
  apply (getDocumentSummary_prefix sample_store 5). simpl. lia.
Defined.

Lemma evaluateAndRespond_context_built_witness :
  exists context w',
    evaluateAndRespond_context (lit "A short paper.")
      [mkMessage (lit "profesor") (lit "Why?")] (lit "Because.") unloaded_world
    = (Returns context, w')
    /\ context = substring (lit "A short paper.") 0 4000
    /\ w' = unloaded_world.
Proof.
  destruct (evaluateAndRespond_context_built (lit "A short paper.")
              [mkMessage (lit "profesor") (lit "Why?")] (lit "Because.")
              unloaded_world)
    as (context & w' & E & _ & _ & _ & H).
  exists context, w'. split; [exact E|]. apply H. reflexivity.
Defined.
